(** * Battery history module: bounded history buffer, persistence and queries

    A shallow embedding of [src/battery_history.c],
    [src/studio/custom_handler.c] and
    [src/battery_history/battery_history_split.c].

    - C [int] variables are [Z]; array indices are checked, and an access
      outside the array (undefined behaviour in C) is the [None] of the
      option monad;
    - the history array is a list of records of the fixed length
      [MAX_HISTORY_ENTRIES]; stored blobs are lists of bytes (8-bit [Z]);
    - the settings store is a finite map from key names to blobs, and the
      outcome of each write to it is an input of the model. *)

From Stdlib Require Import ZArith Lia String.
From stdpp Require Import base option list gmap strings.

Local Open Scope Z_scope.

(** ** Machine integers and object representations *)

Definition INT_MAX : Z := 2147483647.
Definition UINT32_MOD : Z := 4294967296.
Definition EINVAL : Z := 22.
Definition ENOENT : Z := 2.

(** [n] little-endian bytes of [x] (two's complement for negative [x]). *)
Fixpoint le_bytes (n : nat) (x : Z) : list Z :=
  match n with
  | O => []
  | S n' => (x mod 256) :: le_bytes n' (x / 256)
  end.

Fixpoint le_value (bs : list Z) : Z :=
  match bs with
  | [] => 0
  | b :: bs' => b + 256 * le_value bs'
  end.

(** Reading four bytes as a signed [int]. *)
Definition int_of_bytes (bs : list Z) : Z :=
  let u := le_value bs in
  if decide (u <= INT_MAX) then u else u - UINT32_MOD.

Definition sizeof_int : nat := 4.

(** [struct battery_history_entry] of [include/zmk/battery_history.h]. *)
Record battery_history_entry := mk_entry {
  timestamp : Z;            (* uint32_t *)
  battery_percentage : Z;   (* uint8_t *)
}.

Definition valid_entry (e : battery_history_entry) : Prop :=
  0 <= timestamp e < UINT32_MOD /\ 0 <= battery_percentage e < 256.

Definition set_timestamp (t : Z) (e : battery_history_entry) :=
  {| timestamp := t; battery_percentage := battery_percentage e |}.
Definition set_battery_percentage (p : Z) (e : battery_history_entry) :=
  {| timestamp := timestamp e; battery_percentage := p |}.

(** Checked array accesses. *)
Definition arr_get {A} (i : Z) (a : list A) : option A :=
  if decide (0 <= i) then a !! Z.to_nat i else None.

Definition arr_set {A} (i : Z) (x : A) (a : list A) : option (list A) :=
  if decide (0 <= i < Z.of_nat (length a)) then Some (<[Z.to_nat i := x]> a)
  else None.

Definition arr_alter {A} (f : A -> A) (i : Z) (a : list A) : option (list A) :=
  if decide (0 <= i < Z.of_nat (length a)) then Some (alter f (Z.to_nat i) a)
  else None.

(** [memcpy] of [n] array elements from [src] to the front of [dst]. *)
Definition memcpy_entries {A} (n : Z) (src dst : list A) : option (list A) :=
  if decide (0 <= n <= Z.of_nat (length src) /\ n <= Z.of_nat (length dst))
  then Some (take (Z.to_nat n) src ++ drop (Z.to_nat n) dst)
  else None.

(** The last [n] elements of a list. *)
Definition last_n {A} (n : nat) (l : list A) : list A :=
  drop (length l - n) l.

Section BatteryHistory.

(** [CONFIG_ZMK_BATTERY_HISTORY_MAX_ENTRIES], and the number of padding bytes
    that end [struct battery_history_entry] (3 with the usual alignment of
    [uint32_t], 0 for a packed layout). *)
Variable MAX_HISTORY_ENTRIES : nat.
Variable ENTRY_PADDING : nat.

Definition sizeof_entry : nat := (4 + 1 + ENTRY_PADDING)%nat.
Definition sizeof_history : nat := (MAX_HISTORY_ENTRIES * sizeof_entry)%nat.

(** Object representation of one entry, and its reading back. Padding bytes
    are written as zero and never read. *)
Definition entry_bytes (e : battery_history_entry) : list Z :=
  le_bytes 4 (timestamp e) ++ [battery_percentage e mod 256]
    ++ replicate ENTRY_PADDING 0.

Definition entry_of_bytes (bs : list Z) : battery_history_entry :=
  {| timestamp := le_value (take 4 bs);
     battery_percentage := default 0 (bs !! 4%nat) |}.

Definition history_bytes (h : list battery_history_entry) : list Z :=
  concat (entry_bytes <$> h).

Fixpoint history_of_bytes (n : nat) (bs : list Z) : list battery_history_entry :=
  match n with
  | O => []
  | S n' => entry_of_bytes (take sizeof_entry bs)
            :: history_of_bytes n' (drop sizeof_entry bs)
  end.

(** ** Battery history storage: [history] and [history_count] *)

Record state := mk_state {
  history : list battery_history_entry;
  history_count : Z;
}.

(** Static storage is zero-initialised. *)
Definition initial_state : state :=
  {| history := replicate MAX_HISTORY_ENTRIES (mk_entry 0 0);
     history_count := 0 |}.

(** The stored entries, oldest first: the first [history_count] slots. *)
Definition entries (s : state) : list battery_history_entry :=
  take (Z.to_nat (history_count s)) (history s).

Definition buffer_inv (s : state) : Prop :=
  length (history s) = MAX_HISTORY_ENTRIES
  /\ 0 <= history_count s <= Z.of_nat MAX_HISTORY_ENTRIES.

(** [get_current_timestamp]: uptime in seconds, truncated to [uint32_t]. *)
Definition get_current_timestamp (k_uptime_get : Z) : Z :=
  (k_uptime_get ÷ 1000) mod UINT32_MOD.

(** The loop [for (i = 0; i < MAX - 1; i++) history[i] = history[i + 1];]
    with [n] iterations left and the loop variable at [i]. *)
Fixpoint shift_entries (n : nat) (i : Z) (h : list battery_history_entry)
  : option (list battery_history_entry) :=
  match n with
  | O => Some h
  | S n' =>
      e ← arr_get (i + 1) h;
      h' ← arr_set i e h;
      shift_entries n' (i + 1) h'
  end.

Definition add_history_entry (ts : Z) (pct : Z) (s : state) : option state :=
  '(h, c) ←
    (if decide (Z.of_nat MAX_HISTORY_ENTRIES <= history_count s) then
       h ← shift_entries (MAX_HISTORY_ENTRIES - 1) 0 (history s);
       Some (h, Z.of_nat MAX_HISTORY_ENTRIES - 1)
     else Some (history s, history_count s));
  h1 ← arr_alter (set_timestamp ts) c h;
  h2 ← arr_alter (set_battery_percentage pct) c h1;
  Some {| history := h2; history_count := c + 1 |}.

(** ** The settings store

    The key-value store is Zephyr's settings subsystem, an external
    collaborator: a map from key names to byte blobs. [settings_save_one]
    either stores the value and returns 0, or fails with a non-zero code and
    leaves the store as it was; which of the two happens is an input. *)

Definition SETTINGS_KEY : string := "battery_history".
Definition SETTINGS_KEY_COUNT : string := SETTINGS_KEY +:+ "/count".
Definition SETTINGS_KEY_ENTRIES : string := SETTINGS_KEY +:+ "/entries".

Definition settings_save_one (rc : Z) (name : string) (value : list Z)
    (store : gmap string (list Z)) : Z * gmap string (list Z) :=
  if decide (rc = 0) then (0, <[name := value]> store) else (rc, store).

(** The reader handed to a load handler, for a backend whose read
    succeeds: it copies at most [len] bytes of the stored value and returns
    how many. A read that fails (a negative result, which the handler
    passes on) is not modelled; nothing below is stated about it. *)
Definition read_cb (value : list Z) (len : nat) : Z * list Z :=
  (Z.of_nat (length (take len value)), take len value).

(** What the environment supplies to one run of a handler: the uptime in
    milliseconds, the state of charge, and the outcomes of the two writes. *)
Record env := mk_env {
  k_uptime_get : Z;
  zmk_battery_state_of_charge : Z;
  rc_count : Z;
  rc_entries : Z;
}.

(** The first [history_count * sizeof(struct battery_history_entry)] bytes of
    the array, the product taken in [size_t] (32 bits). *)
Definition read_history_bytes (s : state) : option (list Z) :=
  let len := (history_count s * Z.of_nat sizeof_entry) mod UINT32_MOD in
  if decide (len <= Z.of_nat (length (history s) * sizeof_entry))
  then Some (take (Z.to_nat len) (history_bytes (history s)))
  else None.

Definition save_to_storage (e : env) (s : state)
    (store : gmap string (list Z)) : option (Z * gmap string (list Z)) :=
  let '(rc, store1) :=
    settings_save_one (rc_count e) SETTINGS_KEY_COUNT
      (le_bytes sizeof_int (history_count s)) store in
  if decide (rc ≠ 0) then Some (rc, store1)
  else if decide (history_count s > 0) then
    blob ← read_history_bytes s;
    let '(rc, store2) :=
      settings_save_one (rc_entries e) SETTINGS_KEY_ENTRIES blob store1 in
    if decide (rc ≠ 0) then Some (rc, store2) else Some (0, store2)
  else Some (0, store1).

(** [save_battery_state]: the periodic work item. Rescheduling the work item
    only arms the timer for the next run. *)
Definition save_battery_state (e : env) (s : state)
    (store : gmap string (list Z)) : option (state * gmap string (list Z)) :=
  let battery := zmk_battery_state_of_charge e in
  let ts := get_current_timestamp (k_uptime_get e) in
  s' ← add_history_entry ts battery s;
  '(_, store') ← save_to_storage e s' store;
  Some (s', store').

Definition settings_load_handler (key : string) (value : list Z) (s : state)
  : Z * state :=
  let len := length value in
  if decide (key = "count") then
    if decide (len ≠ sizeof_int) then (- EINVAL, s)
    else
      let '(rc, bs) := read_cb value sizeof_int in
      (rc, {| history := history s; history_count := int_of_bytes bs |})
  else if decide (key = "entries") then
    if decide (sizeof_history < len)%nat then (- EINVAL, s)
    else
      let '(rc, bs) := read_cb value len in
      (rc, {| history :=
                history_of_bytes MAX_HISTORY_ENTRIES
                  (bs ++ drop (length bs) (history_bytes (history s)));
              history_count := history_count s |})
  else (- ENOENT, s).

(** [settings_load_subtree] of the settings subsystem: the handler runs once
    for each stored key of the subtree, and its return value is not acted
    upon. Keys other than the two below leave the state as it is. *)
Definition settings_load_subtree (store : gmap string (list Z)) (s : state)
  : state :=
  let s1 :=
    match store !! SETTINGS_KEY_COUNT with
    | Some v => (settings_load_handler "count" v s).2
    | None => s
    end in
  match store !! SETTINGS_KEY_ENTRIES with
  | Some v => (settings_load_handler "entries" v s1).2
  | None => s1
  end.

(** [battery_history_init], once the handler is registered. *)
Definition battery_history_init (store : gmap string (list Z)) : state :=
  settings_load_subtree store initial_state.

(** [battery_state_changed_listener]; [ev] is [None] for an event of another
    type. *)
Definition battery_state_changed_listener (ev : option Z) (e : env)
    (s : state) (store : gmap string (list Z))
  : option (Z * state * gmap string (list Z)) :=
  match ev with
  | None => Some (0, s, store)
  | Some state_of_charge =>
      if decide (history_count s = 0) then
        let ts := get_current_timestamp (k_uptime_get e) in
        s' ← add_history_entry ts state_of_charge s;
        '(_, store') ← save_to_storage e s' store;
        Some (0, s', store')
      else
        last ← arr_get (history_count s - 1) (history s);
        let diff := state_of_charge - battery_percentage last in
        let diff := if decide (diff < 0) then - diff else diff in
        if decide (diff >= 5) then
          let ts := get_current_timestamp (k_uptime_get e) in
          s' ← add_history_entry ts state_of_charge s;
          '(_, store') ← save_to_storage e s' store;
          Some (0, s', store')
        else Some (0, s, store)
  end.

(** ** Public API *)

Definition battery_history_get_count (s : state) : Z := history_count s.

(** [entries] is [None] for a null pointer, otherwise the caller's array. *)
Definition battery_history_get_entries
    (entries : option (list battery_history_entry)) (max_entries : Z)
    (s : state) : option (Z * option (list battery_history_entry)) :=
  match entries with
  | None => Some (- EINVAL, None)
  | Some dst =>
      if decide (max_entries <= 0) then Some (- EINVAL, Some dst)
      else
        let count :=
          if decide (history_count s < max_entries) then history_count s
          else max_entries in
        dst' ← memcpy_entries count (history s) dst;
        Some (count, Some dst')
  end.

Definition battery_history_clear (e : env) (s : state)
    (store : gmap string (list Z))
  : option (Z * state * gmap string (list Z)) :=
  let s' := {| history := history s; history_count := 0 |} in
  '(rc, store') ← save_to_storage e s' store;
  Some (rc, s', store').

Definition battery_history_get_current_battery (e : env) : Z :=
  zmk_battery_state_of_charge e.

(** ** Studio RPC handler ([src/studio/custom_handler.c])

    The wire decoder and the generated message types are external: a decoded
    request is its [which_request_type] tag (both request messages are
    empty), and the decoder is a function from payloads to requests that
    may fail. *)

Record Request := mk_request { which_request_type : Z }.

Inductive Response :=
  | Response_error (message : string)
  | Response_battery_history
      (current_battery : Z) (total_entries : Z)
      (resp_entries : list battery_history_entry)
  | Response_clear_battery_history (success : bool).

Variable Request_get_battery_history_tag : Z.
Variable Request_clear_battery_history_tag : Z.
Variable pb_decode : list Z -> option Request.

(** [sizeof(err.message)], and [snprintf] into a buffer of that size. *)
Variable ERROR_MESSAGE_SIZE : nat.

Definition snprintf (size : nat) (text : string) : string :=
  String.substring 0 (size - 1) text.

Definition error_response (text : string) : Response :=
  Response_error (snprintf ERROR_MESSAGE_SIZE text).

Definition handle_get_battery_history_request (e : env) (s : state)
  : option (Z * option Response) :=
  let current := battery_history_get_current_battery e in
  let count := battery_history_get_count s in
  let buf := replicate MAX_HISTORY_ENTRIES (mk_entry 0 0) in
  '(retrieved, dst) ←
    battery_history_get_entries (Some buf) (Z.of_nat MAX_HISTORY_ENTRIES) s;
  if decide (retrieved < 0) then Some (retrieved, None)
  else
    Some (0, Some (Response_battery_history current count
                     (take (Z.to_nat retrieved) (default [] dst)))).

Definition handle_clear_battery_history_request (e : env) (s : state)
    (store : gmap string (list Z))
  : option (Z * Response * state * gmap string (list Z)) :=
  '(rc, s', store') ← battery_history_clear e s store;
  Some (0, Response_clear_battery_history (bool_decide (rc = 0)), s', store').

Definition battery_history_rpc_handle_request (payload : list Z) (e : env)
    (s : state) (store : gmap string (list Z))
  : option (bool * Response * state * gmap string (list Z)) :=
  match pb_decode payload with
  | None => Some (true, error_response "Failed to decode request", s, store)
  | Some req =>
      '(rc, resp, s', store') ←
        (if decide (which_request_type req = Request_get_battery_history_tag)
         then
           '(rc, resp) ← handle_get_battery_history_request e s;
           Some (rc, resp, s, store)
         else if decide (which_request_type req
                         = Request_clear_battery_history_tag)
         then
           '(rc, resp, s', store') ←
             handle_clear_battery_history_request e s store;
           Some (rc, Some resp, s', store')
         else Some (-1, None, s, store));
      if decide (rc ≠ 0) then
        Some (true, error_response "Failed to process request", s', store')
      else
        resp ← resp;
        Some (true, resp, s', store')
  end.

(** ** Split relay ([src/battery_history/battery_history_split.c]) *)

Record zmk_battery_history_entry_event := mk_entry_event {
  ev_timestamp : Z;
  ev_battery_level : Z;
  ev_entry_index : Z;
  ev_total_entries : Z;
  ev_is_last : bool;
}.

(** The [battery_history_entry] payload of a peripheral transport event. *)
Record split_battery_history_entry := mk_split_entry {
  msg_timestamp : Z;
  msg_battery_level : Z;
  msg_entry_index : Z;
  msg_total_entries : Z;
  msg_is_last : bool;
}.

Inductive event_result := ZMK_EV_EVENT_BUBBLE | ZMK_EV_EVENT_HANDLED.

(** [ev] is [None] for an event of another type; [rc] is the outcome of
    [zmk_split_peripheral_report_event], and [link] the messages handed to
    the transport so far. *)
Definition battery_history_peripheral_listener
    (ev : option zmk_battery_history_entry_event) (rc : Z)
    (link : list split_battery_history_entry)
  : event_result * list split_battery_history_entry :=
  match ev with
  | None => (ZMK_EV_EVENT_BUBBLE, link)
  | Some ev =>
      let peripheral_ev :=
        {| msg_timestamp := ev_timestamp ev;
           msg_battery_level := ev_battery_level ev;
           msg_entry_index := ev_entry_index ev;
           msg_total_entries := ev_total_entries ev;
           msg_is_last := ev_is_last ev |} in
      (ZMK_EV_EVENT_HANDLED,
       if decide (rc < 0) then link else link ++ [peripheral_ev])
  end.

(** ** The reporting device

    The buffer, the settings store and the device link together, and the
    two recording triggers. Neither recording handler raises an event or
    calls the split transport. *)

Record device := mk_device {
  dev_state : state;
  dev_store : gmap string (list Z);
  dev_link : list split_battery_history_entry;
}.

Inductive RecordingTrigger :=
  | PeriodicTick
  | LevelChanged (level : Z).

Definition on_trigger (t : RecordingTrigger) (e : env) (d : device)
  : option device :=
  match t with
  | PeriodicTick =>
      '(s', store') ← save_battery_state e (dev_state d) (dev_store d);
      Some {| dev_state := s'; dev_store := store'; dev_link := dev_link d |}
  | LevelChanged level =>
      '(_, s', store') ←
        battery_state_changed_listener (Some level) e
          (dev_state d) (dev_store d);
      Some {| dev_state := s'; dev_store := store'; dev_link := dev_link d |}
  end.

(** A run of level changes alone, each with its own environment. *)
Fixpoint level_changes (evs : list (Z * env)) (s : state)
    (store : gmap string (list Z)) : option (state * gmap string (list Z)) :=
  match evs with
  | [] => Some (s, store)
  | (level, e) :: evs' =>
      '(_, s', store') ← battery_state_changed_listener (Some level) e s store;
      level_changes evs' s' store'
  end.

(** A run of appends. *)
Fixpoint appends (es : list battery_history_entry) (s : state) : option state :=
  match es with
  | [] => Some s
  | e :: es' =>
      s' ← add_history_entry (timestamp e) (battery_percentage e) s;
      appends es' s'
  end.

(** The relay stream as section 4.4 of the specification words it: one
    chunk per entry, oldest first, [index] counted from zero, [total] the
    number of entries at the start of the stream, [is_last] on the final
    chunk only. *)
Definition spec_relay_stream (es : list battery_history_entry)
  : list split_battery_history_entry :=
  imap (fun i e =>
          {| msg_timestamp := timestamp e;
             msg_battery_level := battery_percentage e;
             msg_entry_index := Z.of_nat i;
             msg_total_entries := Z.of_nat (length es);
             msg_is_last := bool_decide (S i = length es) |}) es.

(** The claim of section 4.4 for the periodic tick, which always appends:
    the link receives the relay stream of the buffer as it is after the
    append. *)
Definition spec_tick_restreams : Prop :=
  forall e d d',
    buffer_inv (dev_state d) ->
    on_trigger PeriodicTick e d = Some d' ->
    dev_link d' = dev_link d ++ spec_relay_stream (entries (dev_state d')).

(** ** Sample inputs *)

Definition sample_env : env :=
  {| k_uptime_get := 60000; zmk_battery_state_of_charge := 80;
     rc_count := 0; rc_entries := 0 |}.

Definition failing_env : env :=
  {| k_uptime_get := 60000; zmk_battery_state_of_charge := 80;
     rc_count := -5; rc_entries := 0 |}.

Definition two_entries : state :=
  {| history := [mk_entry 60 80; mk_entry 120 75; mk_entry 0 0; mk_entry 0 0];
     history_count := 2 |}.

(** A decoder that accepts the one-byte payloads only. *)
Definition sample_pb_decode (payload : list Z) : option Request :=
  match payload with
  | [tag] => Some {| which_request_type := tag |}
  | _ => None
  end.

(** ** Runs of relay events

    The event manager hands history-entry events to the relay listener one
    at a time; each event comes with the outcome of its send. *)

Definition relay_message (ev : zmk_battery_history_entry_event)
  : split_battery_history_entry :=
  {| msg_timestamp := ev_timestamp ev;
     msg_battery_level := ev_battery_level ev;
     msg_entry_index := ev_entry_index ev;
     msg_total_entries := ev_total_entries ev;
     msg_is_last := ev_is_last ev |}.

Fixpoint relay_events (evs : list (zmk_battery_history_entry_event * Z))
    (link : list split_battery_history_entry)
  : list split_battery_history_entry :=
  match evs with
  | [] => link
  | (ev, rc) :: evs' =>
      relay_events evs'
        (battery_history_peripheral_listener (Some ev) rc link).2
  end.

(** ** Runs of recording triggers *)

Fixpoint run_triggers (run : list (RecordingTrigger * env)) (d : device)
  : option device :=
  match run with
  | [] => Some d
  | (t, e) :: run' =>
      d' ← on_trigger t e d;
      run_triggers run' d'
  end.

(** The uptimes of a run do not decrease, starting from [u0], and stay
    below 2^32 seconds. *)
Fixpoint uptimes_nondecreasing (u0 : Z) (run : list (RecordingTrigger * env))
  : Prop :=
  match run with
  | [] => True
  | (_, e) :: run' =>
      u0 <= k_uptime_get e < 1000 * UINT32_MOD
      /\ uptimes_nondecreasing (k_uptime_get e) run'
  end.

(** Timestamps do not decrease from older to newer entries. *)
Definition chronological (es : list battery_history_entry) : Prop :=
  forall i j ei ej,
    es !! i = Some ei -> es !! j = Some ej -> (i <= j)%nat ->
    timestamp ei <= timestamp ej.

(** ** What a recording trigger stores

    The sample a trigger would append, and the condition under which the
    code appends it: always for the periodic tick; for a level change when
    the buffer is empty or the level is at least 5 away from the last
    stored one. *)

Definition trigger_sample (t : RecordingTrigger) (e : env)
  : battery_history_entry :=
  mk_entry (get_current_timestamp (k_uptime_get e))
    match t with
    | PeriodicTick => zmk_battery_state_of_charge e
    | LevelChanged level => level
    end.

Definition trigger_appends (t : RecordingTrigger) (s : state) : Prop :=
  match t with
  | PeriodicTick => True
  | LevelChanged level =>
      match last (entries s) with
      | None => True
      | Some l => 5 <= Z.abs (level - battery_percentage l)
      end
  end.

(** ** Array accesses and the eviction loop *)

Lemma arr_get_app_r {A} (pre : list A) x rest :
  arr_get (Z.of_nat (length pre)) (pre ++ x :: rest) = Some x.
Proof.
  unfold arr_get. rewrite decide_True by lia.
  rewrite Nat2Z.id. by rewrite list_lookup_middle.
Qed.

Lemma arr_set_app_r {A} (pre : list A) x y rest :
  arr_set (Z.of_nat (length pre)) y (pre ++ x :: rest) = Some (pre ++ y :: rest).
Proof.
  unfold arr_set. rewrite decide_True.
  - rewrite Nat2Z.id. f_equal.
    rewrite insert_app_r_alt by lia. by rewrite Nat.sub_diag.
  - rewrite length_app. simpl. lia.
Qed.

Lemma arr_alter_app_r {A} (f : A -> A) (pre : list A) x rest :
  arr_alter f (Z.of_nat (length pre)) (pre ++ x :: rest)
  = Some (pre ++ f x :: rest).
Proof.
  unfold arr_alter. rewrite decide_True.
  - rewrite Nat2Z.id. f_equal.
    rewrite alter_app_r_alt by lia. by rewrite Nat.sub_diag.
  - rewrite length_app. simpl. lia.
Qed.

Lemma shift_entries_spec rest : forall pre x,
  shift_entries (length rest) (Z.of_nat (length pre)) (pre ++ x :: rest)
  = Some (pre ++ rest ++ [default x (last rest)]).
Proof.
  induction rest as [|y rest IH]; intros pre x; simpl; [done|].
  assert (arr_get (Z.of_nat (length pre) + 1) (pre ++ x :: y :: rest) = Some y)
    as ->.
  { rewrite (cons_middle x pre), (assoc_L (++)).
    replace (Z.of_nat (length pre) + 1) with (Z.of_nat (length (pre ++ [x])))
      by (rewrite length_app; simpl; lia).
    apply arr_get_app_r. }
  simpl. rewrite arr_set_app_r. simpl.
  rewrite (cons_middle y pre), (assoc_L (++)).
  replace (Z.of_nat (length pre) + 1) with (Z.of_nat (length (pre ++ [y])))
    by (rewrite length_app; simpl; lia).
  rewrite IH, <- (assoc_L (++)). simpl.
  do 3 f_equal. rewrite last_cons. by destruct (last rest).
Qed.

Ltac write_slot :=
  rewrite arr_alter_app_r; simpl; rewrite arr_alter_app_r; simpl.

Lemma add_history_entry_at pre x rest ts pct :
  length (pre ++ x :: rest) = MAX_HISTORY_ENTRIES ->
  add_history_entry ts pct
    {| history := pre ++ x :: rest; history_count := Z.of_nat (length pre) |}
  = Some {| history := pre ++ mk_entry ts pct :: rest;
            history_count := Z.of_nat (length pre) + 1 |}.
Proof.
  intros Hlen. unfold add_history_entry. simpl.
  rewrite length_app in Hlen. simpl in Hlen.
  rewrite decide_False by lia. simpl. by write_slot.
Qed.

Lemma add_history_entry_room ts pct s :
  buffer_inv s -> history_count s < Z.of_nat MAX_HISTORY_ENTRIES ->
  add_history_entry ts pct s
  = Some {| history := <[Z.to_nat (history_count s) := mk_entry ts pct]> (history s);
            history_count := history_count s + 1 |}.
Proof.
  intros [Hlen Hc] Hlt.
  destruct (lookup_lt_is_Some_2 (history s) (Z.to_nat (history_count s)))
    as [x Hx]; [lia|].
  pose proof (take_drop_middle _ _ _ Hx) as Hsplit.
  remember (take (Z.to_nat (history_count s)) (history s)) as pre eqn:Epre.
  remember (drop (S (Z.to_nat (history_count s))) (history s)) as rest.
  assert (Hpre : length pre = Z.to_nat (history_count s))
    by (subst pre; rewrite length_take; lia).
  destruct s as [h c]; simpl in *. subst h.
  replace c with (Z.of_nat (length pre)) by lia.
  rewrite add_history_entry_at by done.
  rewrite Nat2Z.id, insert_app_r_alt, Nat.sub_diag by lia. done.
Qed.

Lemma last_n_app_last_n {A} n (l r : list A) :
  last_n n (last_n n l ++ r) = last_n n (l ++ r).
Proof.
  unfold last_n. rewrite !length_app, length_drop.
  destruct (decide (length l <= n)%nat) as [Hle|Hgt].
  - replace (length l - n)%nat with 0%nat by lia. simpl.
    by rewrite Nat.sub_0_r.
  - rewrite <- (drop_app_le l r (length l - n)) by lia.
    rewrite drop_drop. f_equal. lia.
Qed.

Lemma last_n_short {A} n (l : list A) : (length l <= n)%nat -> last_n n l = l.
Proof. intros H. unfold last_n. by replace (length l - n)%nat with 0%nat by lia. Qed.

Lemma length_entries s :
  buffer_inv s -> length (entries s) = Z.to_nat (history_count s).
Proof. intros [Hlen Hc]. unfold entries. rewrite length_take. lia. Qed.

Lemma entries_empty s : history_count s = 0 -> entries s = [].
Proof. intros Hc. unfold entries. by rewrite Hc. Qed.

Lemma buffer_inv_initial : buffer_inv initial_state.
Proof. unfold buffer_inv, initial_state. simpl. rewrite length_replicate. lia. Qed.

Lemma arr_get_last s :
  buffer_inv s -> 0 < history_count s ->
  arr_get (history_count s - 1) (history s) = last (entries s).
Proof.
  intros Hinv Hpos. pose proof (length_entries s Hinv) as Hle.
  unfold arr_get. rewrite decide_True by lia.
  rewrite last_lookup, Hle. unfold entries.
  rewrite lookup_take_lt by lia. f_equal. lia.
Qed.

Lemma listener_reject level e s store l :
  buffer_inv s -> last (entries s) = Some l ->
  Z.abs (level - battery_percentage l) < 5 ->
  battery_state_changed_listener (Some level) e s store = Some (0, s, store).
Proof.
  intros Hinv Hl Hlt. unfold battery_state_changed_listener.
  assert (Hpos : 0 < history_count s).
  { destruct (decide (history_count s = 0)) as [Hz|Hnz].
    - by rewrite (entries_empty s Hz) in Hl.
    - destruct Hinv. lia. }
  rewrite decide_False by lia.
  rewrite arr_get_last, Hl by done. simpl.
  by rewrite decide_False by (case_decide; lia).
Qed.

(** ** Object representations *)

Lemma length_le_bytes n x : length (le_bytes n x) = n.
Proof. revert x. induction n as [|n IH]; intros x; simpl; [done|]. by rewrite IH. Qed.

Lemma le_value_le_bytes n x : le_value (le_bytes n x) = x mod 256 ^ Z.of_nat n.
Proof.
  revert x. induction n as [|n IH]; intros x.
  - simpl. by rewrite Z.mod_1_r.
  - cbn [le_bytes le_value]. rewrite IH.
    rewrite Nat2Z.inj_succ, Z.pow_succ_r by lia.
    rewrite Z.rem_mul_r by lia. done.
Qed.

Lemma int_of_bytes_le_bytes c :
  0 <= c <= INT_MAX -> int_of_bytes (le_bytes sizeof_int c) = c.
Proof.
  intros Hc. unfold int_of_bytes. rewrite le_value_le_bytes.
  change (256 ^ Z.of_nat sizeof_int) with UINT32_MOD.
  unfold INT_MAX, UINT32_MOD in *.
  rewrite Z.mod_small by lia. by rewrite decide_True by lia.
Qed.

Lemma length_entry_bytes e : length (entry_bytes e) = sizeof_entry.
Proof.
  unfold entry_bytes, sizeof_entry.
  rewrite !length_app, length_le_bytes, length_replicate. simpl. lia.
Qed.

Lemma entry_of_bytes_entry_bytes e :
  valid_entry e -> entry_of_bytes (entry_bytes e) = e.
Proof.
  intros [Ht Hp]. destruct e as [t p]. unfold entry_of_bytes, entry_bytes.
  simpl in *. f_equal.
  - pose proof (le_value_le_bytes 4 t) as Hv. simpl in Hv. rewrite Hv.
    apply Z.mod_small. unfold UINT32_MOD in Ht. lia.
  - apply Z.mod_small. lia.
Qed.

Lemma length_history_bytes h :
  length (history_bytes h) = (length h * sizeof_entry)%nat.
Proof.
  unfold history_bytes. induction h as [|e h IH]; [done|].
  change (concat (entry_bytes <$> e :: h))
    with (entry_bytes e ++ concat (entry_bytes <$> h)).
  rewrite length_app, length_entry_bytes, IH. simpl. lia.
Qed.

Lemma history_bytes_app h1 h2 :
  history_bytes (h1 ++ h2) = history_bytes h1 ++ history_bytes h2.
Proof. unfold history_bytes. by rewrite fmap_app, concat_app. Qed.

Lemma take_history_bytes k h :
  take (k * sizeof_entry) (history_bytes h) = history_bytes (take k h).
Proof.
  destruct (decide (k <= length h)%nat) as [Hle|Hgt].
  - rewrite <- (take_drop k h) at 1. rewrite history_bytes_app.
    apply take_app_length'. rewrite length_history_bytes, length_take.
    by rewrite Nat.min_l by lia.
  - rewrite !take_ge; [done|lia|]. rewrite length_history_bytes.
    apply Nat.mul_le_mono_r. lia.
Qed.

Lemma length_history_of_bytes n bs : length (history_of_bytes n bs) = n.
Proof. revert bs. induction n as [|n IH]; intros bs; simpl; [done|]. by rewrite IH. Qed.

(** Reading an array back from the representation of valid entries. *)
Lemma history_of_bytes_history_bytes h : forall n rest,
  Forall valid_entry h -> (length h <= n)%nat ->
  take (length h) (history_of_bytes n (history_bytes h ++ rest)) = h.
Proof.
  induction h as [|e h IH]; intros n rest Hv Hn; [done|].
  destruct n as [|n]; simpl in Hn; [lia|].
  inversion Hv as [|? ? He Hh]; subst.
  change (history_bytes (e :: h)) with (entry_bytes e ++ history_bytes h).
  rewrite <- (assoc_L (++)). cbn [history_of_bytes length take].
  rewrite take_app_length' by (by rewrite length_entry_bytes).
  rewrite drop_app_length' by (by rewrite length_entry_bytes).
  rewrite entry_of_bytes_entry_bytes by done.
  f_equal. apply IH; [done|lia].
Qed.

(** ** Saving and loading *)

Lemma settings_keys_distinct : SETTINGS_KEY_COUNT ≠ SETTINGS_KEY_ENTRIES.
Proof. discriminate. Qed.

Lemma save_to_storage_empty e s store :
  history_count s = 0 ->
  save_to_storage e s store
  = Some (if decide (rc_count e = 0)
          then (0, <[SETTINGS_KEY_COUNT := le_bytes sizeof_int 0]> store)
          else (rc_count e, store)).
Proof.
  intros Hc. unfold save_to_storage, settings_save_one. rewrite Hc.
  repeat (case_decide; simpl; try done; try lia).
Qed.

Lemma read_history_bytes_inv s :
  buffer_inv s -> Z.of_nat sizeof_history < UINT32_MOD ->
  read_history_bytes s = Some (history_bytes (entries s)).
Proof.
  intros [Hlen Hc] Hsz. unfold read_history_bytes, entries, sizeof_history in *.
  assert (Hprod : 0 <= history_count s * Z.of_nat sizeof_entry
                  <= Z.of_nat (MAX_HISTORY_ENTRIES * sizeof_entry)) by nia.
  rewrite Z.mod_small by lia. rewrite Hlen.
  rewrite decide_True by lia. f_equal.
  rewrite <- take_history_bytes. f_equal. nia.
Qed.

Lemma read_history_bytes_defined s :
  buffer_inv s -> is_Some (read_history_bytes s).
Proof.
  intros [Hlen Hc]. unfold read_history_bytes.
  assert (Hprod : 0 <= history_count s * Z.of_nat sizeof_entry
                  <= Z.of_nat (length (history s) * sizeof_entry)) by nia.
  pose proof (Z.mod_le (history_count s * Z.of_nat sizeof_entry) UINT32_MOD)
    as Hmod.
  rewrite decide_True; [done|]. unfold UINT32_MOD in *. lia.
Qed.

Lemma save_to_storage_defined e s store :
  buffer_inv s -> is_Some (save_to_storage e s store).
Proof.
  intros Hinv. unfold save_to_storage, settings_save_one.
  destruct (read_history_bytes_defined s Hinv) as [blob ->].
  repeat (case_decide; simpl); done.
Qed.

Lemma save_to_storage_ok e s store :
  buffer_inv s -> Z.of_nat sizeof_history < UINT32_MOD ->
  0 < history_count s -> rc_count e = 0 -> rc_entries e = 0 ->
  save_to_storage e s store
  = Some (0, <[SETTINGS_KEY_ENTRIES := history_bytes (entries s)]>
               (<[SETTINGS_KEY_COUNT := le_bytes sizeof_int (history_count s)]>
                  store)).
Proof.
  intros Hinv Hsz Hpos Hrc1 Hrc2. unfold save_to_storage, settings_save_one.
  rewrite Hrc1, Hrc2, read_history_bytes_inv by done. simpl.
  repeat (case_decide; simpl; try done; try lia).
Qed.

Lemma load_count v s :
  length v = sizeof_int ->
  settings_load_handler "count" v s
  = (Z.of_nat sizeof_int,
     {| history := history s; history_count := int_of_bytes v |}).
Proof.
  intros Hv. unfold settings_load_handler, read_cb.
  rewrite decide_True by done. rewrite decide_False by (intros H; by apply H).
  by rewrite take_ge, Hv by lia.
Qed.

Lemma load_entries v s :
  (length v <= sizeof_history)%nat ->
  settings_load_handler "entries" v s
  = (Z.of_nat (length v),
     {| history := history_of_bytes MAX_HISTORY_ENTRIES
                     (v ++ drop (length v) (history_bytes (history s)));
        history_count := history_count s |}).
Proof.
  intros Hv. unfold settings_load_handler, read_cb.
  rewrite decide_False by done. rewrite decide_True by done.
  rewrite decide_False by lia. by rewrite take_ge by lia.
Qed.

Lemma load_entries_count v s :
  history_count (settings_load_handler "entries" v s).2 = history_count s.
Proof.
  unfold settings_load_handler, read_cb.
  rewrite decide_False by done. rewrite decide_True by done.
  by case_decide.
Qed.

(** The two keys touch different variables, so the order in which the
    backend presents them to the handler does not matter. *)
Lemma load_handlers_commute v1 v2 s :
  (settings_load_handler "entries" v2 (settings_load_handler "count" v1 s).2).2
  = (settings_load_handler "count" v1 (settings_load_handler "entries" v2 s).2).2.
Proof.
  unfold settings_load_handler, read_cb.
  rewrite (decide_True (P := "count" = "count")) by done.
  rewrite (decide_False (P := "entries" = "count")) by done.
  rewrite (decide_True (P := "entries" = "entries")) by done.
  repeat case_decide; done.
Qed.

Lemma load_count_zero (store : gmap string (list Z)) s0 :
  store !! SETTINGS_KEY_COUNT = Some (le_bytes sizeof_int 0) ->
  history_count (settings_load_subtree store s0) = 0.
Proof.
  intros Hstore. unfold settings_load_subtree. rewrite Hstore.
  rewrite load_count by apply length_le_bytes.
  destruct (store !! SETTINGS_KEY_ENTRIES); by rewrite ?load_entries_count.
Qed.

Lemma init_count_loaded (store : gmap string (list Z)) c :
  0 <= c <= INT_MAX ->
  store !! SETTINGS_KEY_COUNT = Some (le_bytes sizeof_int c) ->
  history_count (battery_history_init store) = c.
Proof.
  intros Hc Hstore. unfold battery_history_init, settings_load_subtree.
  rewrite Hstore, load_count by apply length_le_bytes.
  destruct (store !! SETTINGS_KEY_ENTRIES);
    rewrite ?load_entries_count; cbn [snd history_count];
    by rewrite int_of_bytes_le_bytes by lia.
Qed.

Lemma length_history_init (store : gmap string (list Z)) :
  length (history (battery_history_init store)) = MAX_HISTORY_ENTRIES.
Proof.
  unfold battery_history_init, settings_load_subtree.
  assert (Hcount : forall v s,
    history (settings_load_handler "count" v s).2 = history s).
  { intros v s. unfold settings_load_handler, read_cb.
    rewrite decide_True by done. by case_decide. }
  assert (Hentries : forall v s,
    length (history s) = MAX_HISTORY_ENTRIES ->
    length (history (settings_load_handler "entries" v s).2)
    = MAX_HISTORY_ENTRIES).
  { intros v s Hs. unfold settings_load_handler, read_cb.
    rewrite decide_False by done. rewrite decide_True by done.
    case_decide; simpl; by rewrite ?length_history_of_bytes. }
  assert (Hinit : length (history initial_state) = MAX_HISTORY_ENTRIES)
    by apply length_replicate.
  destruct (store !! SETTINGS_KEY_COUNT), (store !! SETTINGS_KEY_ENTRIES);
    rewrite ?Hentries, ?Hcount; try done; by rewrite Hcount.
Qed.

(** C3. Saving a buffer when its writes succeed, then loading the store,
    gives back the same count and the same entries in the same order; this
    includes the empty buffer, and holds whatever the store and the array
    held before. *)
Theorem save_then_load_roundtrip (e : env) (s s0 : state)
    (store : gmap string (list Z)) :
  buffer_inv s -> Forall valid_entry (entries s) ->
  Z.of_nat sizeof_history < UINT32_MOD ->
  length (history s0) = MAX_HISTORY_ENTRIES ->
  rc_count e = 0 -> (0 < history_count s -> rc_entries e = 0) ->
  exists store', save_to_storage e s store = Some (0, store')
    /\ history_count (settings_load_subtree store' s0) = history_count s
    /\ entries (settings_load_subtree store' s0) = entries s
    /\ history_count (battery_history_init store') = history_count s
    /\ entries (battery_history_init store') = entries s.
Proof.
  intros Hinv Hvalid Hsz Hlen0 Hrc1 Hrc2.
  assert (Hgen :
    exists store', save_to_storage e s store = Some (0, store')
      /\ (forall s1, length (history s1) = MAX_HISTORY_ENTRIES ->
          history_count (settings_load_subtree store' s1) = history_count s
          /\ entries (settings_load_subtree store' s1) = entries s)).
  { pose proof (length_entries s Hinv) as Hle.
    assert (Hint : 0 <= history_count s <= INT_MAX).
    { destruct Hinv as [_ Hc]. unfold sizeof_history, sizeof_entry in Hsz.
      unfold INT_MAX, UINT32_MOD in *. nia. }
    destruct (decide (history_count s = 0)) as [Hz|Hnz].
    - eexists. split.
      { rewrite save_to_storage_empty by done. by rewrite decide_True by done. }
      intros s1 Hl1. unfold settings_load_subtree.
      rewrite lookup_insert_eq.
      rewrite load_count by apply length_le_bytes.
      rewrite lookup_insert_ne by apply settings_keys_distinct.
      assert (Hcnt : int_of_bytes (le_bytes sizeof_int 0) = 0) by done.
      destruct (store !! SETTINGS_KEY_ENTRIES) as [v|]; cbn [snd].
      + split.
        * rewrite load_entries_count. cbn [history_count]. by rewrite Hcnt, Hz.
        * unfold entries. rewrite load_entries_count. cbn [history_count].
          by rewrite Hcnt, Hz.
      + cbn [history_count history]. unfold entries. cbn [history_count history].
        by rewrite Hcnt, Hz.
    - eexists. split.
      { assert (Hpos : 0 < history_count s) by (destruct Hinv; lia).
        apply save_to_storage_ok; try done. by apply Hrc2. }
      intros s1 Hl1. unfold settings_load_subtree.
      rewrite (lookup_insert_ne _ SETTINGS_KEY_ENTRIES SETTINGS_KEY_COUNT)
        by discriminate.
      rewrite lookup_insert_eq, lookup_insert_eq.
      rewrite load_count by apply length_le_bytes. cbn [snd].
      rewrite load_entries.
      2:{ rewrite length_history_bytes. unfold sizeof_history.
          apply Nat.mul_le_mono_r. destruct Hinv as [_ Hc]. lia. }
      cbn [snd history history_count].
      rewrite int_of_bytes_le_bytes by done. split; [done|].
      unfold entries at 1. cbn [snd history history_count]. rewrite <- Hle.
      apply history_of_bytes_history_bytes; [done|].
      destruct Hinv as [_ Hc]. lia. }
  destruct Hgen as (store' & Hsave & Hload).
  exists store'. split; [done|].
  destruct (Hload s0 Hlen0) as [H1 H2].
  destruct (Hload initial_state (proj1 buffer_inv_initial)) as [H3 H4].
  done.
Qed.

(** C10. Saving a buffer whose count is 0 attempts the count write alone:
    the result is the outcome of that write, every key other than the count
    key, the entries key among them, keeps its stored blob, and on success
    the stored count is that of the empty buffer. *)
Theorem save_empty_writes_count_only (e : env) (s : state)
    (store : gmap string (list Z)) :
  history_count s = 0 ->
  exists store', save_to_storage e s store = Some (rc_count e, store')
    /\ store' !! SETTINGS_KEY_ENTRIES = store !! SETTINGS_KEY_ENTRIES
    /\ (forall k, k ≠ SETTINGS_KEY_COUNT -> store' !! k = store !! k)
    /\ (rc_count e = 0 ->
        store' !! SETTINGS_KEY_COUNT = Some (le_bytes sizeof_int 0))
    /\ (rc_count e ≠ 0 -> store' = store).
Proof.
  intros Hc. rewrite save_to_storage_empty by done.
  destruct (decide (rc_count e = 0)) as [Hrc|Hrc].
  - rewrite Hrc. eexists. split; [done|]. repeat split.
    + by rewrite lookup_insert_ne by discriminate.
    + intros k Hk. by rewrite lookup_insert_ne by done.
    + intros _. by rewrite lookup_insert_eq.
    + done.
  - eexists. split; [done|]. done.
Qed.

(** C6. Clearing sets the count to 0 whatever the buffer held and returns
    the outcome of the count write; when that write succeeds a later load
    reads count 0, and when it fails the buffer is empty all the same, the
    store is as before and the error code is the return value. *)
Theorem clear_law (e : env) (s : state) (store : gmap string (list Z)) :
  exists s' store',
    battery_history_clear e s store = Some (rc_count e, s', store')
    /\ battery_history_get_count s' = 0
    /\ entries s' = []
    /\ (rc_count e = 0 ->
        history_count (battery_history_init store') = 0
        /\ forall s0, history_count (settings_load_subtree store' s0) = 0)
    /\ (rc_count e ≠ 0 -> store' = store).
Proof.
  unfold battery_history_clear.
  rewrite save_to_storage_empty by done.
  destruct (decide (rc_count e = 0)) as [Hrc|Hrc]; simpl; rewrite ?Hrc.
  - eexists _, _. split; [done|]. split; [done|]. split; [done|].
    split; [|done]. intros _. unfold battery_history_init.
    split; [|intros s0]; apply load_count_zero, lookup_insert_eq.
  - eexists _, _. split; [done|]. split; [done|]. split; [done|]. done.
Qed.

(** ** Reading the buffer *)

(** C7. With room for the result in the caller's array, a read with
    [max > 0] returns [min(count, max)] and copies that many entries,
    oldest first, to the front of the array; with [max = 0] it returns
    [-EINVAL] and copies nothing. The read takes the buffer as an input
    only. *)
Theorem get_entries_min_oldest_first (s : state)
    (dst : list battery_history_entry) (max_entries : Z) :
  buffer_inv s ->
  (0 < max_entries ->
   Z.min (history_count s) max_entries <= Z.of_nat (length dst) ->
   battery_history_get_entries (Some dst) max_entries s
   = Some (Z.min (history_count s) max_entries,
           Some (take (Z.to_nat max_entries) (entries s)
                 ++ drop (Z.to_nat (Z.min (history_count s) max_entries)) dst))
   /\ Z.of_nat (length (take (Z.to_nat max_entries) (entries s)))
      = Z.min (history_count s) max_entries)
  /\ (max_entries = 0 ->
      battery_history_get_entries (Some dst) max_entries s
      = Some (- EINVAL, Some dst)).
Proof.
  intros Hinv. pose proof (length_entries s Hinv) as Hle.
  destruct Hinv as [Hlen Hc]. split.
  - intros Hmax Hdst. unfold battery_history_get_entries, memcpy_entries.
    rewrite decide_False by lia.
    assert (Hmin : (if decide (history_count s < max_entries)
                    then history_count s else max_entries)
                   = Z.min (history_count s) max_entries)
      by (case_decide; lia).
    rewrite Hmin. rewrite decide_True by lia. simpl.
    unfold entries in *. rewrite take_take, length_take.
    clear Hmin. split.
    2:{ rewrite Hlen. rewrite !Nat2Z.inj_min, !Z2Nat.id by lia. lia. }
    do 4 f_equal. f_equal. lia.
  - intros ->. done.
Qed.

(** ** Requests that cannot be served *)

Lemma substring_all (text : string) : forall n,
  (String.length text <= n)%nat -> String.substring 0 n text = text.
Proof.
  induction text as [|c text IH]; intros n Hn.
  - by destruct n.
  - destruct n as [|n]; simpl in *; [lia|]. rewrite IH by lia. done.
Qed.

(** C9. A payload that does not decode and a decoded request of neither
    known type are both answered with an error response whose message is
    the handler's text cut to the message buffer (the whole text when the
    buffer holds it); the handler returns [true], and the buffer and the
    store are as before. *)
Theorem rpc_bad_request_error_response (payload : list Z) (e : env)
    (s : state) (store : gmap string (list Z)) :
  (pb_decode payload = None ->
   battery_history_rpc_handle_request payload e s store
   = Some (true,
           Response_error
             (snprintf ERROR_MESSAGE_SIZE "Failed to decode request"),
           s, store))
  /\ (forall req,
      pb_decode payload = Some req ->
      which_request_type req ≠ Request_get_battery_history_tag ->
      which_request_type req ≠ Request_clear_battery_history_tag ->
      battery_history_rpc_handle_request payload e s store
      = Some (true,
              Response_error
                (snprintf ERROR_MESSAGE_SIZE "Failed to process request"),
              s, store))
  /\ ((26 <= ERROR_MESSAGE_SIZE)%nat ->
      snprintf ERROR_MESSAGE_SIZE "Failed to decode request"
      = "Failed to decode request"%string
      /\ snprintf ERROR_MESSAGE_SIZE "Failed to process request"
         = "Failed to process request"%string).
Proof.
  unfold battery_history_rpc_handle_request, error_response.
  split; [|split].
  - by intros ->.
  - intros req -> Hget Hclear.
    rewrite decide_False by done. rewrite decide_False by done.
    done.
  - intros Hsz. unfold snprintf. split; apply substring_all; simpl; lia.
Qed.

(** ** Loading a count beyond the capacity *)

(** C1, at the failing load. A stored count above the capacity that fits an
    [int] is read into [history_count] as it is: the handler returns the four
    bytes read, not [-EINVAL], and after start-up the count exceeds the
    capacity. An oversized entries blob is refused with [-EINVAL], and the
    count loaded before it stays. *)
Theorem load_accepts_count_above_capacity (c : Z) (s : state) :
  Z.of_nat MAX_HISTORY_ENTRIES < c <= INT_MAX ->
  settings_load_handler "count" (le_bytes sizeof_int c) s
  = (4, {| history := history s; history_count := c |})
  /\ (forall store,
      store !! SETTINGS_KEY_COUNT = Some (le_bytes sizeof_int c) ->
      battery_history_get_count (battery_history_init store) = c)
  /\ (forall v,
      (sizeof_history < length v)%nat ->
      settings_load_handler "entries" v
        {| history := history s; history_count := c |}
      = (- EINVAL, {| history := history s; history_count := c |})).
Proof.
  intros Hc. split; [|split].
  - rewrite load_count by apply length_le_bytes.
    by rewrite int_of_bytes_le_bytes by lia.
  - intros store Hstore. apply init_count_loaded; [lia|done].
  - intros v Hv. unfold settings_load_handler.
    rewrite decide_False by done. rewrite decide_True by done.
    by rewrite decide_True by done.
Qed.

(** ** Appending, for a capacity of at least one entry *)

Section NonEmptyCapacity.

Hypothesis MAX_pos : (0 < MAX_HISTORY_ENTRIES)%nat.

Lemma add_history_entry_full ts pct s :
  buffer_inv s -> history_count s = Z.of_nat MAX_HISTORY_ENTRIES ->
  add_history_entry ts pct s
  = Some {| history := drop 1 (history s) ++ [mk_entry ts pct];
            history_count := Z.of_nat MAX_HISTORY_ENTRIES |}.
Proof.
  intros [Hlen Hc] Hfull. unfold add_history_entry.
  rewrite decide_True by lia.
  destruct (history s) as [|x rest] eqn:Hh; simpl in Hlen; [lia|].
  replace (MAX_HISTORY_ENTRIES - 1)%nat with (length rest) by lia.
  pose proof (shift_entries_spec rest [] x) as Hs.
  change (shift_entries (length rest) 0 (x :: rest)
          = Some (rest ++ [default x (last rest)])) in Hs.
  rewrite Hs. simpl.
  replace (Z.of_nat MAX_HISTORY_ENTRIES - 1) with (Z.of_nat (length rest)) by lia.
  write_slot. rewrite drop_0. do 2 f_equal. lia.
Qed.

Lemma add_history_entry_entries ts pct s :
  buffer_inv s ->
  exists s', add_history_entry ts pct s = Some s'
    /\ buffer_inv s'
    /\ history_count s' = Z.min (history_count s + 1) (Z.of_nat MAX_HISTORY_ENTRIES)
    /\ entries s' = last_n MAX_HISTORY_ENTRIES (entries s ++ [mk_entry ts pct]).
Proof.
  intros Hinv. pose proof (length_entries s Hinv) as Hle.
  destruct Hinv as [Hlen Hc].
  destruct (decide (history_count s < Z.of_nat MAX_HISTORY_ENTRIES)) as [Hlt|Hge].
  - eexists. split; [by apply add_history_entry_room|].
    unfold buffer_inv, entries, last_n in *. simpl.
    rewrite length_insert, !length_app, Hle. simpl.
    repeat split; try lia.
    replace (Z.to_nat (history_count s) + 1 - MAX_HISTORY_ENTRIES)%nat
      with 0%nat by lia.
    replace (Z.to_nat (history_count s + 1)) with (S (Z.to_nat (history_count s)))
      by lia.
    simpl drop.
    erewrite take_S_r by (apply list_lookup_insert_eq; lia).
    by rewrite take_insert_ge by lia.
  - assert (Hfull : history_count s = Z.of_nat MAX_HISTORY_ENTRIES) by lia.
    eexists. split; [by apply add_history_entry_full|].
    unfold buffer_inv, entries, last_n in *. simpl.
    rewrite !length_app, length_drop, Hle, Hfull, Nat2Z.id. simpl.
    repeat split; try lia.
    rewrite Hfull, Nat2Z.id in *.
    rewrite !take_ge by (rewrite ?length_app, ?length_drop; simpl; lia).
    replace (MAX_HISTORY_ENTRIES + 1 - MAX_HISTORY_ENTRIES)%nat with 1%nat by lia.
    rewrite drop_app_le by lia. done.
Qed.

Lemma appends_entries es : forall s,
  buffer_inv s ->
  exists s', appends es s = Some s'
    /\ buffer_inv s'
    /\ entries s' = last_n MAX_HISTORY_ENTRIES (entries s ++ es).
Proof.
  induction es as [|e es IH]; intros s Hinv; simpl.
  - exists s. repeat split; try apply Hinv.
    rewrite app_nil_r. unfold last_n.
    rewrite length_entries by done. destruct Hinv as [_ Hc].
    by replace (Z.to_nat (history_count s) - MAX_HISTORY_ENTRIES)%nat
      with 0%nat by lia.
  - destruct (add_history_entry_entries (timestamp e) (battery_percentage e) s Hinv)
      as (s1 & -> & Hinv1 & _ & He1). simpl.
    destruct (IH s1 Hinv1) as (s' & -> & Hinv' & He').
    exists s'. repeat split; try apply Hinv'.
    rewrite He', He1, last_n_app_last_n, <- (assoc_L (++)).
    by destruct e.
Qed.

(** C2. Appending [N + k] entries to the empty buffer of capacity [N] always
    succeeds and leaves exactly the last [N] of them, oldest first, with the
    count at [N]; a single append on a full buffer drops the entry at index 0
    and on any buffer puts the new entry last. *)
Theorem fifo_append_keeps_last_N :
  (forall (es : list battery_history_entry) (k : nat),
      length es = (MAX_HISTORY_ENTRIES + k)%nat ->
      exists s', appends es initial_state = Some s'
        /\ history_count s' = Z.of_nat MAX_HISTORY_ENTRIES
        /\ entries s' = drop k es)
  /\ (forall s ts pct, buffer_inv s ->
      exists s', add_history_entry ts pct s = Some s'
        /\ last (entries s') = Some (mk_entry ts pct)
        /\ (history_count s = Z.of_nat MAX_HISTORY_ENTRIES ->
            history_count s' = Z.of_nat MAX_HISTORY_ENTRIES
            /\ entries s' = drop 1 (entries s) ++ [mk_entry ts pct])
        /\ (history_count s < Z.of_nat MAX_HISTORY_ENTRIES ->
            history_count s' = history_count s + 1
            /\ entries s' = entries s ++ [mk_entry ts pct])).
Proof.
  split.
  - intros es k Hlen.
    destruct (appends_entries es initial_state buffer_inv_initial)
      as (s' & Happ & Hinv & Hes).
    exists s'. split; [done|].
    change (entries initial_state) with (@nil battery_history_entry) in Hes.
    simpl in Hes.
    assert (Hdrop : last_n MAX_HISTORY_ENTRIES es = drop k es)
      by (unfold last_n; f_equal; lia).
    rewrite Hdrop in Hes. split; [|done].
    pose proof (length_entries s' Hinv) as Hl.
    rewrite Hes, length_drop in Hl. destruct Hinv as [_ Hc]. lia.
  - intros s ts pct Hinv.
    destruct (add_history_entry_entries ts pct s Hinv)
      as (s' & Hadd & Hinv' & Hc' & Hes).
    pose proof (length_entries s Hinv) as Hl. destruct Hinv as [_ Hc].
    exists s'. split; [done|].
    assert (Hfull : history_count s = Z.of_nat MAX_HISTORY_ENTRIES ->
                    entries s' = drop 1 (entries s) ++ [mk_entry ts pct]).
    { intros Hf. rewrite Hes. unfold last_n. rewrite length_app, Hl. simpl.
      replace (Z.to_nat (history_count s) + 1 - MAX_HISTORY_ENTRIES)%nat
        with 1%nat by lia.
      rewrite drop_app_le by lia. done. }
    assert (Hroom : history_count s < Z.of_nat MAX_HISTORY_ENTRIES ->
                    entries s' = entries s ++ [mk_entry ts pct]).
    { intros Hlt. rewrite Hes. apply last_n_short.
      rewrite length_app, Hl. simpl. lia. }
    repeat split.
    + destruct (decide (history_count s < Z.of_nat MAX_HISTORY_ENTRIES)).
      * rewrite Hroom by done. apply last_snoc.
      * rewrite Hfull by lia. apply last_snoc.
    + lia.
    + by apply Hfull.
    + lia.
    + by apply Hroom.
Qed.

(** ** Recording policy *)

Lemma record_sample ts level e s store :
  buffer_inv s ->
  exists s' store',
    (s' ← add_history_entry ts level s;
     '(_, store') ← save_to_storage e s' store;
     Some (0, s', store')) = Some (0, s', store')
    /\ buffer_inv s'
    /\ entries s' = last_n MAX_HISTORY_ENTRIES (entries s ++ [mk_entry ts level]).
Proof.
  intros Hinv.
  destruct (add_history_entry_entries ts level s Hinv)
    as (s' & -> & Hinv' & _ & Hes).
  destruct (save_to_storage_defined e s' store Hinv') as [[rc store'] Hsave].
  exists s', store'. simpl. by rewrite Hsave.
Qed.

Lemma listener_accept level e s store :
  buffer_inv s ->
  match last (entries s) with
  | None => True
  | Some l => 5 <= Z.abs (level - battery_percentage l)
  end ->
  exists s' store',
    battery_state_changed_listener (Some level) e s store = Some (0, s', store')
    /\ buffer_inv s'
    /\ entries s'
       = last_n MAX_HISTORY_ENTRIES
           (entries s
            ++ [mk_entry (get_current_timestamp (k_uptime_get e)) level]).
Proof.
  intros Hinv Hacc. unfold battery_state_changed_listener.
  destruct (decide (history_count s = 0)) as [Hz|Hnz].
  - by apply record_sample.
  - rewrite arr_get_last by (try done; destruct Hinv; lia).
    destruct (last (entries s)) as [l|] eqn:Hl.
    + simpl. rewrite decide_True by (case_decide; lia).
      by apply record_sample.
    + apply last_None in Hl. pose proof (length_entries s Hinv) as Hle.
      rewrite Hl in Hle. simpl in Hle. destruct Hinv. lia.
Qed.

(** C4. On a level change the sample is stored at once when the buffer is
    empty; otherwise it is stored when its absolute difference from the
    last stored level is at least 5 and dropped when it is below 5. With
    room for two entries, the levels 80, 83, 90, 88 delivered to the empty
    buffer leave the levels 80 and 90. *)
Theorem level_change_threshold :
  (forall level e s store, buffer_inv s ->
     let sample := mk_entry (get_current_timestamp (k_uptime_get e)) level in
     (history_count s = 0 ->
      exists s' store',
        battery_state_changed_listener (Some level) e s store
        = Some (0, s', store')
        /\ entries s' = [sample])
     /\ (history_count s ≠ 0 ->
         exists l, last (entries s) = Some l
           /\ (5 <= Z.abs (level - battery_percentage l) ->
               exists s' store',
                 battery_state_changed_listener (Some level) e s store
                 = Some (0, s', store')
                 /\ entries s'
                    = last_n MAX_HISTORY_ENTRIES (entries s ++ [sample]))
           /\ (Z.abs (level - battery_percentage l) < 5 ->
               battery_state_changed_listener (Some level) e s store
               = Some (0, s, store))))
  /\ ((2 <= MAX_HISTORY_ENTRIES)%nat ->
      forall e1 e2 e3 e4 store,
      exists s' store',
        level_changes [(80, e1); (83, e2); (90, e3); (88, e4)]
          initial_state store = Some (s', store')
        /\ battery_percentage <$> entries s' = [80; 90]).
Proof.
  split.
  - intros level e s store Hinv sample. split.
    + intros Hz.
      destruct (listener_accept level e s store Hinv) as (s' & store' & Hl & _ & Hes).
      { by rewrite (entries_empty s Hz). }
      exists s', store'. split; [done|].
      rewrite Hes, (entries_empty s Hz). apply last_n_short. simpl. lia.
    + intros Hnz.
      destruct (last (entries s)) as [l|] eqn:Hlast.
      * exists l. split; [done|]. split.
        -- intros Hge.
           destruct (listener_accept level e s store Hinv)
             as (s' & store' & Hl & _ & Hes); [by rewrite Hlast|].
           by exists s', store'.
        -- intros Hlt. by eapply listener_reject.
      * apply last_None in Hlast. pose proof (length_entries s Hinv) as Hle.
        rewrite Hlast in Hle. simpl in Hle. destruct Hinv. lia.
  - intros Hcap e1 e2 e3 e4 store. cbn [level_changes].
    destruct (listener_accept 80 e1 initial_state store buffer_inv_initial)
      as (s1 & store1 & -> & Hinv1 & Hes1); [done|].
    change (entries initial_state) with (@nil battery_history_entry) in Hes1.
    rewrite last_n_short in Hes1 by (simpl; lia). simpl in Hes1.
    cbn [mbind option_bind].
    rewrite (listener_reject 83 e2 s1 store1
               (mk_entry (get_current_timestamp (k_uptime_get e1)) 80) Hinv1)
      by (rewrite ?Hes1; simpl; (done || lia)).
    cbn [mbind option_bind].
    destruct (listener_accept 90 e3 s1 store1 Hinv1)
      as (s3 & store3 & -> & Hinv3 & Hes3); [rewrite Hes1; simpl; lia|].
    rewrite Hes1 in Hes3. rewrite last_n_short in Hes3 by (simpl; lia).
    simpl in Hes3. cbn [mbind option_bind].
    rewrite (listener_reject 88 e4 s3 store3
               (mk_entry (get_current_timestamp (k_uptime_get e3)) 90) Hinv3)
      by (rewrite ?Hes3; simpl; (done || lia)).
    cbn [mbind option_bind].
    exists s3, store3. split; [done|]. by rewrite Hes3.
Qed.

(** ** The device link *)

Lemma record_sample_saved ts level e s (store : gmap string (list Z)) :
  buffer_inv s ->
  exists s' rc store',
    add_history_entry ts level s = Some s'
    /\ save_to_storage e s' store = Some (rc, store')
    /\ buffer_inv s'
    /\ 0 < history_count s'
    /\ entries s'
       = last_n MAX_HISTORY_ENTRIES (entries s ++ [mk_entry ts level]).
Proof.
  intros Hinv.
  destruct (add_history_entry_entries ts level s Hinv)
    as (s' & Hadd & Hinv' & Hc' & Hes).
  destruct (save_to_storage_defined e s' store Hinv') as [[rc store'] Hsave].
  exists s', rc, store'. repeat split; try done; try apply Hinv'.
  destruct Hinv as [_ Hc]. lia.
Qed.

Lemma save_store_unchanged e s (store store' : gmap string (list Z)) rc :
  save_to_storage e s store = Some (rc, store') ->
  rc_count e ≠ 0 -> store' = store.
Proof.
  intros Hsave Hrc. unfold save_to_storage, settings_save_one in Hsave.
  rewrite decide_False in Hsave by done.
  rewrite decide_True in Hsave by done. by inversion Hsave.
Qed.

Lemma trigger_stores_and_saves t e d :
  buffer_inv (dev_state d) -> trigger_appends t (dev_state d) ->
  exists s' rc store',
    add_history_entry (timestamp (trigger_sample t e))
      (battery_percentage (trigger_sample t e)) (dev_state d) = Some s'
    /\ save_to_storage e s' (dev_store d) = Some (rc, store')
    /\ on_trigger t e d
       = Some {| dev_state := s'; dev_store := store'; dev_link := dev_link d |}
    /\ buffer_inv s'
    /\ 0 < history_count s'
    /\ entries s'
       = last_n MAX_HISTORY_ENTRIES
           (entries (dev_state d) ++ [trigger_sample t e]).
Proof.
  intros Hinv Happ.
  destruct (record_sample_saved (timestamp (trigger_sample t e))
              (battery_percentage (trigger_sample t e)) e (dev_state d)
              (dev_store d) Hinv)
    as (s' & rc & store' & Hadd & Hsave & Hinv' & Hpos & Hes).
  exists s', rc, store'. split; [done|]. split; [done|].
  split; [|by destruct t].
  destruct t as [|level]; unfold on_trigger; simpl in *.
  - unfold save_battery_state. rewrite Hadd. simpl. by rewrite Hsave.
  - unfold battery_state_changed_listener.
    destruct (decide (history_count (dev_state d) = 0)) as [Hz|Hnz].
    + rewrite Hadd. simpl. by rewrite Hsave.
    + rewrite arr_get_last by (try done; destruct Hinv; lia).
      destruct (last (entries (dev_state d))) as [l|] eqn:Hl.
      * simpl. rewrite decide_True by (case_decide; lia).
        rewrite Hadd. simpl. by rewrite Hsave.
      * apply last_None in Hl. pose proof (length_entries _ Hinv) as Hle.
        rewrite Hl in Hle. simpl in Hle. destruct Hinv. lia.
Qed.

Lemma relay_events_app evs1 evs2 link :
  relay_events (evs1 ++ evs2) link = relay_events evs2 (relay_events evs1 link).
Proof.
  revert link. induction evs1 as [|[ev rc] evs1 IH]; intros link; [done|].
  cbn [app relay_events]. apply IH.
Qed.

Lemma relay_events_all_sent evs : forall link,
  Forall (fun p => 0 <= p.2) evs ->
  relay_events evs link = link ++ (relay_message ∘ fst <$> evs).
Proof.
  induction evs as [|[ev rc] evs IH]; intros link Hok.
  - simpl. by rewrite app_nil_r.
  - inversion Hok as [|? ? Hrc Hrest]; subst. simpl in Hrc.
    cbn [relay_events]. rewrite IH by done.
    unfold battery_history_peripheral_listener. cbn [snd].
    rewrite decide_False by lia. by rewrite <- (assoc_L (++)).
Qed.

(** C8, as the code has it. A recording trigger that appends (the periodic
    tick, or a level change that is accepted) on a buffer within its bounds
    stores its sample as the newest entry and attempts one save of the new
    buffer: the store afterwards is the result of that save, unchanged when
    the count write fails and holding the new count and entries when both
    writes succeed. The trigger hands nothing to the device link. The relay
    listener, over a run of history-entry events whose sends succeed, hands
    the link one message per event, in order, with the event's timestamp,
    level, index, total and last flag; a send that fails drops its own
    message and the run goes on. *)
Theorem append_stores_saves_sends_nothing (t : RecordingTrigger) (e : env)
    (d : device) :
  buffer_inv (dev_state d) ->
  (trigger_appends t (dev_state d) ->
   exists d' rc,
     on_trigger t e d = Some d'
     /\ entries (dev_state d')
        = last_n MAX_HISTORY_ENTRIES
            (entries (dev_state d) ++ [trigger_sample t e])
     /\ last (entries (dev_state d')) = Some (trigger_sample t e)
     /\ buffer_inv (dev_state d')
     /\ save_to_storage e (dev_state d') (dev_store d)
        = Some (rc, dev_store d')
     /\ (rc_count e ≠ 0 -> dev_store d' = dev_store d)
     /\ (Z.of_nat sizeof_history < UINT32_MOD ->
         rc_count e = 0 -> rc_entries e = 0 ->
         rc = 0
         /\ dev_store d'
            = <[SETTINGS_KEY_ENTRIES :=
                  history_bytes (entries (dev_state d'))]>
                (<[SETTINGS_KEY_COUNT :=
                     le_bytes sizeof_int (history_count (dev_state d'))]>
                   (dev_store d)))
     /\ dev_link d' = dev_link d)
  /\ (forall evs link,
      Forall (fun p => 0 <= p.2) evs ->
      relay_events evs link = link ++ (relay_message ∘ fst <$> evs))
  /\ (forall evs1 ev rc evs2 link,
      rc < 0 ->
      relay_events (evs1 ++ (ev, rc) :: evs2) link
      = relay_events (evs1 ++ evs2) link).
Proof.
  intros Hinv. split; [|split].
  - intros Happ.
    destruct (trigger_stores_and_saves t e d Hinv Happ)
      as (s' & rc & store' & Hadd & Hsave & Htrig & Hinv' & Hpos & Hes).
    eexists _, rc. split; [exact Htrig|]. cbn [dev_state dev_store dev_link].
    split; [done|]. split.
    { rewrite Hes. unfold last_n. rewrite length_app. simpl.
      rewrite drop_app_le by lia. apply last_snoc. }
    split; [done|]. split; [done|]. split.
    { by apply (save_store_unchanged e s' (dev_store d) store' rc). }
    split; [|done]. intros Hsz Hrc1 Hrc2.
    rewrite (save_to_storage_ok e s' (dev_store d)) in Hsave by done.
    by inversion Hsave.
  - intros evs link. apply relay_events_all_sent.
  - intros evs1 ev rc evs2 link Hrc. rewrite !relay_events_app.
    cbn [relay_events]. unfold battery_history_peripheral_listener.
    cbn [snd]. by rewrite decide_True by done.
Qed.

(** ** The length invariant *)

(** C5, at the failing load. Appending and clearing keep the count within
    [0..N]; start-up with a stored count above [N] does not, and the next
    level change then reads the last stored level past the end of the
    array. *)
Theorem load_breaks_length_invariant :
  (forall s ts pct, buffer_inv s ->
     exists s', add_history_entry ts pct s = Some s' /\ buffer_inv s')
  /\ (forall e s store, buffer_inv s ->
      exists rc s' store',
        battery_history_clear e s store = Some (rc, s', store')
        /\ buffer_inv s')
  /\ (forall c store,
      Z.of_nat MAX_HISTORY_ENTRIES < c <= INT_MAX ->
      store !! SETTINGS_KEY_COUNT = Some (le_bytes sizeof_int c) ->
      ~ buffer_inv (battery_history_init store)
      /\ forall level e store',
           battery_state_changed_listener (Some level) e
             (battery_history_init store) store' = None).
Proof.
  split; [|split].
  - intros s ts pct Hinv.
    destruct (add_history_entry_entries ts pct s Hinv) as (s' & ? & ? & _).
    by exists s'.
  - intros e s store [Hlen Hc]. unfold battery_history_clear.
    rewrite save_to_storage_empty by done.
    destruct (decide (rc_count e = 0)); simpl;
      eexists _, _, _; (split; [done|]); split; simpl; (done || lia).
  - intros c store Hc Hstore.
    pose proof (init_count_loaded store c ltac:(lia) Hstore) as Hcount.
    pose proof (length_history_init store) as Hlen.
    split.
    + intros [_ Hinv]. lia.
    + intros level e store'. unfold battery_state_changed_listener, arr_get.
      rewrite Hcount. rewrite decide_False by lia.
      rewrite decide_True by lia.
      by rewrite lookup_ge_None_2 by lia.
Qed.

End NonEmptyCapacity.

(** * Further properties of the code *)

(** ** Loading *)

Lemma valid_zero_entry : valid_entry (mk_entry 0 0).
Proof. unfold valid_entry, UINT32_MOD. simpl. lia. Qed.

Lemma drop_history_bytes k h :
  drop (k * sizeof_entry) (history_bytes h) = history_bytes (drop k h).
Proof.
  destruct (decide (k <= length h)%nat) as [Hle|Hgt].
  - rewrite <- (take_drop k h) at 1. rewrite history_bytes_app.
    apply drop_app_length'. rewrite length_history_bytes, length_take.
    by rewrite Nat.min_l by lia.
  - rewrite !drop_ge; [done|lia|]. rewrite length_history_bytes.
    apply Nat.mul_le_mono_r. lia.
Qed.

Lemma history_of_bytes_exact h :
  Forall valid_entry h ->
  history_of_bytes (length h) (history_bytes h) = h.
Proof.
  intros Hv.
  pose proof (history_of_bytes_history_bytes h (length h) [] Hv (le_n _)) as H.
  rewrite app_nil_r in H. rewrite take_ge in H; [done|].
  by rewrite length_history_of_bytes.
Qed.

Lemma init_count_raw (store : gmap string (list Z)) v :
  store !! SETTINGS_KEY_COUNT = Some v -> length v = sizeof_int ->
  history_count (battery_history_init store) = int_of_bytes v.
Proof.
  intros Hstore Hv. unfold battery_history_init, settings_load_subtree.
  rewrite Hstore, load_count by done.
  destruct (store !! SETTINGS_KEY_ENTRIES); by rewrite ?load_entries_count.
Qed.

Lemma load_count_rejected v s :
  length v ≠ sizeof_int -> settings_load_handler "count" v s = (- EINVAL, s).
Proof.
  intros Hv. unfold settings_load_handler.
  rewrite decide_True by done. by rewrite decide_True by done.
Qed.

Lemma load_entries_rejected v s :
  (sizeof_history < length v)%nat ->
  settings_load_handler "entries" v s = (- EINVAL, s).
Proof.
  intros Hv. unfold settings_load_handler.
  rewrite decide_False by done. rewrite decide_True by done.
  by rewrite decide_True by done.
Qed.

(** X1. The handler's own refusals change nothing and read nothing: a
    count blob that is not four bytes long and an entries blob longer than
    the array are refused with [-EINVAL], any other key with [-ENOENT], and
    the buffer is as before in each case. *)
Theorem load_refusal_keeps_state (key : string) (v : list Z) (s : state) :
  (length v ≠ sizeof_int ->
   settings_load_handler "count" v s = (- EINVAL, s))
  /\ ((sizeof_history < length v)%nat ->
      settings_load_handler "entries" v s = (- EINVAL, s))
  /\ (key ≠ "count"%string -> key ≠ "entries"%string ->
      settings_load_handler key v s = (- ENOENT, s)).
Proof.
  split; [apply load_count_rejected|split; [apply load_entries_rejected|]].
  intros Hc He. unfold settings_load_handler.
  rewrite decide_False by done. by rewrite decide_False by done.
Qed.

(** X2. Without a usable count key (none stored, or one that is not four
    bytes long) start-up leaves the buffer empty and within its bounds,
    whatever the entries key holds; with neither key stored the state is the
    zero-initialised one. *)
Theorem init_without_count_is_empty (store : gmap string (list Z)) :
  (forall v, store !! SETTINGS_KEY_COUNT = Some v -> length v ≠ sizeof_int) ->
  battery_history_get_count (battery_history_init store) = 0
  /\ entries (battery_history_init store) = []
  /\ buffer_inv (battery_history_init store)
  /\ (store !! SETTINGS_KEY_COUNT = None ->
      store !! SETTINGS_KEY_ENTRIES = None ->
      battery_history_init store = initial_state).
Proof.
  intros Hcount.
  assert (Hc : history_count (battery_history_init store) = 0).
  { unfold battery_history_init, settings_load_subtree.
    destruct (store !! SETTINGS_KEY_COUNT) as [v|] eqn:Hv.
    - rewrite load_count_rejected by (by apply Hcount).
      destruct (store !! SETTINGS_KEY_ENTRIES);
        by rewrite ?load_entries_count.
    - destruct (store !! SETTINGS_KEY_ENTRIES);
        by rewrite ?load_entries_count. }
  split; [done|]. split; [by apply entries_empty|]. split.
  - split; [apply length_history_init|]. rewrite Hc. lia.
  - intros Hn1 Hn2. unfold battery_history_init, settings_load_subtree.
    by rewrite Hn1, Hn2.
Qed.

(** X3. With a four-byte count stored, start-up leaves the buffer within
    its bounds exactly when that count, read as an [int], lies in [0..N];
    the array keeps its [N] slots in every case. *)
Theorem init_inv_iff_count_in_range (store : gmap string (list Z))
    (v : list Z) :
  store !! SETTINGS_KEY_COUNT = Some v -> length v = sizeof_int ->
  length (history (battery_history_init store)) = MAX_HISTORY_ENTRIES
  /\ (buffer_inv (battery_history_init store)
      <-> 0 <= int_of_bytes v <= Z.of_nat MAX_HISTORY_ENTRIES).
Proof.
  intros Hstore Hv.
  pose proof (init_count_raw store v Hstore Hv) as Hc.
  pose proof (length_history_init store) as Hlen.
  split; [done|]. unfold buffer_inv. rewrite Hc. split.
  - by intros [_ Hrange].
  - by intros Hrange.
Qed.

(** X4. Start-up from a stored count [c] in [0..N] and a stored blob of
    [k <= N] whole entries fills the first [k] slots with those entries and
    leaves the other slots zero; the buffer then shows the first [c] slots,
    whether or not [c] equals [k]. *)
Theorem init_from_stored_entries (store : gmap string (list Z)) (c : Z)
    (es : list battery_history_entry) :
  store !! SETTINGS_KEY_COUNT = Some (le_bytes sizeof_int c) ->
  store !! SETTINGS_KEY_ENTRIES = Some (history_bytes es) ->
  Forall valid_entry es ->
  (length es <= MAX_HISTORY_ENTRIES)%nat ->
  0 <= c <= Z.of_nat MAX_HISTORY_ENTRIES -> c <= INT_MAX ->
  battery_history_init store
  = {| history :=
         es ++ replicate (MAX_HISTORY_ENTRIES - length es) (mk_entry 0 0);
       history_count := c |}.
Proof.
  intros Hcount Hentries Hvalid Hlen Hc Hint.
  unfold battery_history_init, settings_load_subtree.
  rewrite Hcount, Hentries, load_count by apply length_le_bytes.
  cbn [snd]. rewrite load_entries.
  2:{ rewrite length_history_bytes. by apply Nat.mul_le_mono_r. }
  cbn [snd history history_count].
  rewrite int_of_bytes_le_bytes by lia. f_equal.
  rewrite length_history_bytes, drop_history_bytes, <- history_bytes_app.
  unfold initial_state. cbn [history]. rewrite drop_replicate.
  set (h := es ++ replicate (MAX_HISTORY_ENTRIES - length es) (mk_entry 0 0)).
  assert (Hh : length h = MAX_HISTORY_ENTRIES)
    by (subst h; rewrite length_app, length_replicate; lia).
  rewrite <- Hh at 1. apply history_of_bytes_exact.
  subst h. apply Forall_app. split; [done|].
  apply Forall_replicate, valid_zero_entry.
Qed.

(** X5. The order in which the backend presents the two keys does not
    matter: loading the entries key first and the count key second gives
    the state that loading the count first and the entries second gives. *)
Theorem load_order_irrelevant (store : gmap string (list Z)) (s : state) :
  (let s1 :=
     match store !! SETTINGS_KEY_ENTRIES with
     | Some v => (settings_load_handler "entries" v s).2
     | None => s
     end in
   match store !! SETTINGS_KEY_COUNT with
   | Some v => (settings_load_handler "count" v s1).2
   | None => s1
   end)
  = settings_load_subtree store s.
Proof.
  unfold settings_load_subtree.
  destruct (store !! SETTINGS_KEY_COUNT) as [v1|],
           (store !! SETTINGS_KEY_ENTRIES) as [v2|]; simpl; try done.
  symmetry. apply load_handlers_commute.
Qed.

(** X7. The count survives the store for every value of an [int], the
    negative ones included: loading the four bytes that saving writes for
    [c] sets [history_count] to [c]. *)
Theorem count_blob_roundtrip (c : Z) (s : state) :
  - INT_MAX - 1 <= c <= INT_MAX ->
  settings_load_handler "count" (le_bytes sizeof_int c) s
  = (4, {| history := history s; history_count := c |}).
Proof.
  intros Hc. rewrite load_count by apply length_le_bytes.
  f_equal. f_equal. unfold int_of_bytes. rewrite le_value_le_bytes.
  change (256 ^ Z.of_nat sizeof_int) with UINT32_MOD.
  unfold INT_MAX, UINT32_MOD in *.
  destruct (decide (0 <= c)) as [Hpos|Hneg].
  - rewrite Z.mod_small by lia. by rewrite decide_True by lia.
  - replace (c mod 4294967296) with (c + 4294967296).
    + rewrite decide_False by lia. lia.
    + apply Z.mod_unique with (q := -1); lia.
Qed.

(** ** Saving *)

(** X8. Saving stops at the first write that fails and returns its code:
    when the count write fails the store is untouched, for any count and
    without reading the array; when the entries write fails the store
    holds the new count beside the entries blob it had; the result is 0
    only when every write attempted succeeded. *)
Theorem save_stops_at_first_failure (e : env) (s : state)
    (store : gmap string (list Z)) :
  (rc_count e ≠ 0 -> save_to_storage e s store = Some (rc_count e, store))
  /\ (buffer_inv s -> rc_count e = 0 -> 0 < history_count s ->
      rc_entries e ≠ 0 ->
      save_to_storage e s store
      = Some (rc_entries e,
              <[SETTINGS_KEY_COUNT := le_bytes sizeof_int (history_count s)]>
                store))
  /\ (buffer_inv s -> forall store',
      save_to_storage e s store = Some (0, store') ->
      rc_count e = 0 /\ (0 < history_count s -> rc_entries e = 0)).
Proof.
  split; [|split].
  - intros Hrc. unfold save_to_storage, settings_save_one.
    rewrite decide_False by done. by rewrite decide_True by done.
  - intros Hinv Hrc Hpos Hre.
    destruct (read_history_bytes_defined s Hinv) as [blob Hblob].
    unfold save_to_storage, settings_save_one. rewrite Hrc, Hblob. simpl.
    repeat (case_decide; simpl; try done; try lia).
  - intros Hinv store' Hsave.
    destruct (read_history_bytes_defined s Hinv) as [blob Hblob].
    unfold save_to_storage, settings_save_one in Hsave.
    rewrite Hblob in Hsave. simpl in Hsave.
    repeat (case_decide; simpl in Hsave; try done; try lia);
      inversion Hsave; subst; try done; split; (done || lia).
Qed.

Lemma save_zero_inv e s (store store' : gmap string (list Z)) :
  buffer_inv s -> save_to_storage e s store = Some (0, store') ->
  rc_count e = 0 /\ (0 < history_count s -> rc_entries e = 0).
Proof.
  intros Hinv Hsave.
  destruct (read_history_bytes_defined s Hinv) as [blob Hblob].
  unfold save_to_storage, settings_save_one in Hsave.
  rewrite Hblob in Hsave. simpl in Hsave.
  repeat (case_decide; simpl in Hsave; try done; try lia);
    inversion Hsave; subst; try done; split; (done || lia).
Qed.

(** X10. After a successful save of a non-empty buffer the store holds a
    count blob of four bytes and an entries blob of exactly
    [count * sizeof(struct battery_history_entry)] bytes, which is within
    the size of the array. *)
Theorem saved_blob_sizes (e : env) (s : state)
    (store store' : gmap string (list Z)) :
  buffer_inv s -> Z.of_nat sizeof_history < UINT32_MOD ->
  0 < history_count s ->
  save_to_storage e s store = Some (0, store') ->
  exists count_blob entries_blob,
    store' !! SETTINGS_KEY_COUNT = Some count_blob
    /\ length count_blob = 4%nat
    /\ store' !! SETTINGS_KEY_ENTRIES = Some entries_blob
    /\ Z.of_nat (length entries_blob)
       = history_count s * Z.of_nat sizeof_entry
    /\ (length entries_blob <= sizeof_history)%nat.
Proof.
  intros Hinv Hsz Hpos Hsave.
  destruct (save_zero_inv e s store store' Hinv Hsave) as [Hrc1 Hrc2].
  rewrite save_to_storage_ok in Hsave by (try done; by apply Hrc2).
  inversion Hsave; subst. eexists _, _.
  rewrite (lookup_insert_ne _ SETTINGS_KEY_ENTRIES SETTINGS_KEY_COUNT)
    by discriminate.
  rewrite !lookup_insert_eq. split; [done|].
  split; [done|]. split; [done|].
  rewrite length_history_bytes, length_entries by done.
  destruct Hinv as [Hlen Hc]. split; [nia|].
  unfold sizeof_history. apply Nat.mul_le_mono_r. lia.
Qed.

(** X9. Saving is idempotent: when a save succeeds, saving the same buffer
    again over the resulting store succeeds and leaves that store as it
    is. *)
Theorem save_idempotent (e : env) (s : state)
    (store store' : gmap string (list Z)) :
  buffer_inv s ->
  save_to_storage e s store = Some (0, store') ->
  save_to_storage e s store' = Some (0, store').
Proof.
  intros Hinv Hsave.
  destruct (read_history_bytes_defined s Hinv) as [blob Hblob].
  unfold save_to_storage, settings_save_one in *.
  rewrite Hblob in *. simpl in *.
  repeat (case_decide; simpl in *; try done; try lia);
    inversion Hsave; subst; try done; try lia.
  - by rewrite insert_insert_ne, insert_insert_eq, insert_insert_ne,
      insert_insert_eq by discriminate.
  - by rewrite insert_insert_eq.
Qed.

(** ** Appending and the periodic tick *)

(** X6. An append brings a count that is too large back within bounds: on
    an array of [N >= 1] slots with any count of at least [N], it drops slot
    0, stores the new entry in the last slot and sets the count to [N]. *)
Theorem append_repairs_large_count (ts pct : Z) (s : state) :
  (0 < MAX_HISTORY_ENTRIES)%nat ->
  length (history s) = MAX_HISTORY_ENTRIES ->
  Z.of_nat MAX_HISTORY_ENTRIES <= history_count s ->
  add_history_entry ts pct s
  = Some {| history := drop 1 (history s) ++ [mk_entry ts pct];
            history_count := Z.of_nat MAX_HISTORY_ENTRIES |}
  /\ buffer_inv {| history := drop 1 (history s) ++ [mk_entry ts pct];
                   history_count := Z.of_nat MAX_HISTORY_ENTRIES |}.
Proof.
  intros Hpos Hlen Hge. split.
  - unfold add_history_entry. rewrite decide_True by lia.
    destruct (history s) as [|x rest] eqn:Hh; simpl in Hlen; [lia|].
    replace (MAX_HISTORY_ENTRIES - 1)%nat with (length rest) by lia.
    pose proof (shift_entries_spec rest [] x) as Hs.
    change (shift_entries (length rest) 0 (x :: rest)
            = Some (rest ++ [default x (last rest)])) in Hs.
    rewrite Hs. simpl.
    replace (Z.of_nat MAX_HISTORY_ENTRIES - 1) with (Z.of_nat (length rest))
      by lia.
    write_slot. rewrite drop_0. do 2 f_equal. lia.
  - split; simpl; [|lia].
    rewrite length_app, length_drop. simpl. lia.
Qed.

Lemma get_current_timestamp_range u :
  0 <= get_current_timestamp u < UINT32_MOD.
Proof. unfold get_current_timestamp. apply Z.mod_pos_bound. done. Qed.

Lemma timestamp_step u1 u2 :
  0 <= u1 <= u2 -> u2 < 1000 * UINT32_MOD ->
  get_current_timestamp u1 = u1 / 1000
  /\ get_current_timestamp u1 <= get_current_timestamp u2.
Proof.
  intros Hu Hbound. unfold get_current_timestamp, UINT32_MOD in *.
  rewrite !Z.quot_div_nonneg by lia.
  assert (H1 : 0 <= u1 / 1000 < 4294967296)
    by (split; [apply Z.div_pos; lia | apply Z.div_lt_upper_bound; lia]).
  assert (H2 : 0 <= u2 / 1000 < 4294967296)
    by (split; [apply Z.div_pos; lia | apply Z.div_lt_upper_bound; lia]).
  rewrite !Z.mod_small by done. split; [done|].
  apply Z.div_le_mono; lia.
Qed.

(** X13. The timestamp is the uptime in whole seconds, always within
    [uint32_t]; it does not decrease as the uptime grows, as long as the
    uptime stays below 2^32 seconds. *)
Theorem timestamp_seconds_monotone (u1 u2 : Z) :
  0 <= get_current_timestamp u1 < UINT32_MOD
  /\ (0 <= u1 <= u2 -> u2 < 1000 * UINT32_MOD ->
      get_current_timestamp u1 = u1 / 1000
      /\ get_current_timestamp u1 <= get_current_timestamp u2).
Proof.
  split; [apply get_current_timestamp_range|]. apply timestamp_step.
Qed.

Lemma valid_last_n_snoc es e :
  Forall valid_entry es -> valid_entry e ->
  Forall valid_entry (last_n MAX_HISTORY_ENTRIES (es ++ [e])).
Proof.
  intros Hes He. unfold last_n. apply Forall_drop, Forall_app.
  split; [done|]. by apply Forall_singleton.
Qed.

Lemma last_last_n_snoc {A} n (es : list A) x :
  (0 < n)%nat -> last (last_n n (es ++ [x])) = Some x.
Proof.
  intros Hn. unfold last_n. rewrite length_app. simpl.
  rewrite drop_app_le by lia. apply last_snoc.
Qed.

(** Loading a store that holds a saved, non-empty buffer. *)
Lemma load_saved_store s (store : gmap string (list Z)) s0 :
  buffer_inv s -> Forall valid_entry (entries s) ->
  Z.of_nat sizeof_history < UINT32_MOD ->
  let store' :=
    <[SETTINGS_KEY_ENTRIES := history_bytes (entries s)]>
      (<[SETTINGS_KEY_COUNT := le_bytes sizeof_int (history_count s)]> store)
  in
  history_count (settings_load_subtree store' s0) = history_count s
  /\ entries (settings_load_subtree store' s0) = entries s.
Proof.
  intros Hinv Hvalid Hsz store'.
  pose proof (length_entries s Hinv) as Hle.
  assert (Hint : 0 <= history_count s <= INT_MAX).
  { destruct Hinv as [_ Hc]. unfold sizeof_history, sizeof_entry in Hsz.
    unfold INT_MAX, UINT32_MOD in *. nia. }
  subst store'. unfold settings_load_subtree.
  rewrite (lookup_insert_ne _ SETTINGS_KEY_ENTRIES SETTINGS_KEY_COUNT)
    by discriminate.
  rewrite lookup_insert_eq, lookup_insert_eq.
  rewrite load_count by apply length_le_bytes. cbn [snd].
  rewrite load_entries.
  2:{ rewrite length_history_bytes. unfold sizeof_history.
      apply Nat.mul_le_mono_r. destruct Hinv as [_ Hc]. lia. }
  cbn [snd history history_count].
  rewrite int_of_bytes_le_bytes by done. split; [done|].
  unfold entries at 1. cbn [snd history history_count]. rewrite <- Hle.
  apply history_of_bytes_history_bytes; [done|].
  destruct Hinv as [_ Hc]. lia.
Qed.

(** X11. The periodic tick stores the current reading whatever the last
    stored level is and whatever the writes return: the buffer after the
    tick is the one the append alone gives, with the reading as its newest
    entry, stamped with the uptime in seconds. *)
Theorem tick_always_appends (e : env) (s : state)
    (store : gmap string (list Z)) :
  (0 < MAX_HISTORY_ENTRIES)%nat ->
  buffer_inv s ->
  let sample :=
    mk_entry (get_current_timestamp (k_uptime_get e))
      (zmk_battery_state_of_charge e) in
  exists s' store',
    save_battery_state e s store = Some (s', store')
    /\ add_history_entry (timestamp sample) (battery_percentage sample) s
       = Some s'
    /\ buffer_inv s'
    /\ entries s' = last_n MAX_HISTORY_ENTRIES (entries s ++ [sample])
    /\ last (entries s') = Some sample.
Proof.
  intros Hpos Hinv sample. unfold save_battery_state.
  destruct (add_history_entry_entries Hpos (timestamp sample)
              (battery_percentage sample) s Hinv)
    as (s' & Hadd & Hinv' & _ & Hes).
  destruct (save_to_storage_defined e s' store Hinv') as [[rc store'] Hsave].
  exists s', store'. simpl in *. rewrite Hadd. simpl. rewrite Hsave. simpl.
  repeat split; try done; try apply Hinv'.
  rewrite Hes. by apply last_last_n_snoc.
Qed.

(** X12. A tick whose writes succeed, followed by a restart, brings back
    the buffer as the tick left it: same count, same entries. *)
Theorem tick_then_restart (e : env) (s : state)
    (store : gmap string (list Z)) :
  (0 < MAX_HISTORY_ENTRIES)%nat ->
  buffer_inv s -> Forall valid_entry (entries s) ->
  0 <= zmk_battery_state_of_charge e < 256 ->
  Z.of_nat sizeof_history < UINT32_MOD ->
  rc_count e = 0 -> rc_entries e = 0 ->
  exists s' store',
    save_battery_state e s store = Some (s', store')
    /\ history_count (battery_history_init store') = history_count s'
    /\ entries (battery_history_init store') = entries s'.
Proof.
  intros Hpos Hinv Hvalid Hsoc Hsz Hrc1 Hrc2. unfold save_battery_state.
  destruct (add_history_entry_entries Hpos
              (get_current_timestamp (k_uptime_get e))
              (zmk_battery_state_of_charge e) s Hinv)
    as (s' & Hadd & Hinv' & Hc' & Hes).
  assert (Hcount : 0 < history_count s') by (destruct Hinv; lia).
  assert (Hvalid' : Forall valid_entry (entries s')).
  { rewrite Hes. apply valid_last_n_snoc; [done|].
    split; [apply get_current_timestamp_range|done]. }
  rewrite Hadd. simpl.
  rewrite (save_to_storage_ok e s' store) by done. simpl.
  eexists _, _. split; [done|].
  unfold battery_history_init. by apply load_saved_store.
Qed.

(** ** Queries and requests *)

Lemma get_entries_all s :
  (0 < MAX_HISTORY_ENTRIES)%nat -> buffer_inv s ->
  battery_history_get_entries
    (Some (replicate MAX_HISTORY_ENTRIES (mk_entry 0 0)))
    (Z.of_nat MAX_HISTORY_ENTRIES) s
  = Some (history_count s,
          Some (entries s
                ++ drop (Z.to_nat (history_count s))
                     (replicate MAX_HISTORY_ENTRIES (mk_entry 0 0)))).
Proof.
  intros Hpos [Hlen Hc]. unfold battery_history_get_entries, memcpy_entries.
  rewrite decide_False by lia.
  assert (Hmin : (if decide (history_count s < Z.of_nat MAX_HISTORY_ENTRIES)
                  then history_count s else Z.of_nat MAX_HISTORY_ENTRIES)
                 = history_count s) by (case_decide; lia).
  rewrite Hmin, length_replicate, Hlen. by rewrite decide_True by lia.
Qed.

Lemma handle_get_ok e s :
  (0 < MAX_HISTORY_ENTRIES)%nat -> buffer_inv s ->
  handle_get_battery_history_request e s
  = Some (0, Some (Response_battery_history
                     (zmk_battery_state_of_charge e) (history_count s)
                     (entries s))).
Proof.
  intros Hpos Hinv. pose proof (length_entries s Hinv) as Hle.
  unfold handle_get_battery_history_request.
  rewrite get_entries_all by done. simpl.
  destruct Hinv as [Hlen Hc]. rewrite decide_False by lia.
  do 4 f_equal. by rewrite take_app_length' by done.
Qed.

(** X14. A get-history request on a buffer within its bounds is answered
    with the current state of charge, the count, and all stored entries,
    oldest first; the handler returns [true] and changes neither the buffer
    nor the store. *)
Theorem rpc_get_history_response (payload : list Z) (req : Request)
    (e : env) (s : state) (store : gmap string (list Z)) :
  (0 < MAX_HISTORY_ENTRIES)%nat -> buffer_inv s ->
  pb_decode payload = Some req ->
  which_request_type req = Request_get_battery_history_tag ->
  battery_history_rpc_handle_request payload e s store
  = Some (true,
          Response_battery_history (zmk_battery_state_of_charge e)
            (history_count s) (entries s),
          s, store).
Proof.
  intros Hpos Hinv Hdec Htag. unfold battery_history_rpc_handle_request.
  rewrite Hdec. rewrite decide_True by done.
  by rewrite handle_get_ok by done.
Qed.

Lemma handle_clear_ok e s (store : gmap string (list Z)) :
  handle_clear_battery_history_request e s store
  = Some (0, Response_clear_battery_history (bool_decide (rc_count e = 0)),
          {| history := history s; history_count := 0 |},
          if decide (rc_count e = 0)
          then <[SETTINGS_KEY_COUNT := le_bytes sizeof_int 0]> store
          else store).
Proof.
  unfold handle_clear_battery_history_request, battery_history_clear.
  rewrite save_to_storage_empty by done.
  destruct (decide (rc_count e = 0)) as [Hrc|Hrc]; simpl.
  - by rewrite bool_decide_eq_true_2.
  - done.
Qed.

(** X15. A clear-history request always gets a clear-history response,
    never an error response: its success flag tells whether the count
    write succeeded, and the buffer is empty afterwards either way. The
    store gets the zero count when the write succeeds and is untouched when
    it fails. *)
Theorem rpc_clear_history_response (payload : list Z) (req : Request)
    (e : env) (s : state) (store : gmap string (list Z)) :
  pb_decode payload = Some req ->
  which_request_type req ≠ Request_get_battery_history_tag ->
  which_request_type req = Request_clear_battery_history_tag ->
  battery_history_rpc_handle_request payload e s store
  = Some (true,
          Response_clear_battery_history (bool_decide (rc_count e = 0)),
          {| history := history s; history_count := 0 |},
          if decide (rc_count e = 0)
          then <[SETTINGS_KEY_COUNT := le_bytes sizeof_int 0]> store
          else store).
Proof.
  intros Hdec Hget Hclear. unfold battery_history_rpc_handle_request.
  rewrite Hdec. rewrite decide_False by done. rewrite decide_True by done.
  by rewrite handle_clear_ok.
Qed.

(** X16. On a buffer within its bounds the handler answers every payload:
    it returns [true] with a response, and the buffer is within its bounds
    afterwards. *)
Theorem rpc_handler_always_answers (payload : list Z) (e : env) (s : state)
    (store : gmap string (list Z)) :
  buffer_inv s ->
  exists resp s' store',
    battery_history_rpc_handle_request payload e s store
    = Some (true, resp, s', store')
    /\ buffer_inv s'.
Proof.
  intros Hinv. unfold battery_history_rpc_handle_request.
  destruct (pb_decode payload) as [req|]; [|by eexists _, _, _].
  destruct (decide (which_request_type req = Request_get_battery_history_tag)).
  - destruct (decide (0 < MAX_HISTORY_ENTRIES)%nat) as [Hpos|Hzero].
    + rewrite handle_get_ok by done. by eexists _, _, _.
    + unfold handle_get_battery_history_request, battery_history_get_entries.
      rewrite decide_True by lia. simpl. by eexists _, _, _.
  - destruct (decide (which_request_type req
                      = Request_clear_battery_history_tag)).
    + rewrite handle_clear_ok. simpl. eexists _, _, _. split; [done|].
      destruct Hinv as [Hlen Hc]. split; simpl; [done|lia].
    + simpl. by eexists _, _, _.
Qed.

(** X17. A clear-history request followed by a get-history request reports
    no entries: count 0 and an empty list, whether or not the write of the
    clear succeeded. *)
Theorem rpc_clear_then_get (p_clear p_get : list Z) (r_clear r_get : Request)
    (e1 e2 : env) (s : state) (store : gmap string (list Z)) :
  (0 < MAX_HISTORY_ENTRIES)%nat ->
  length (history s) = MAX_HISTORY_ENTRIES ->
  Request_get_battery_history_tag ≠ Request_clear_battery_history_tag ->
  pb_decode p_clear = Some r_clear ->
  which_request_type r_clear = Request_clear_battery_history_tag ->
  pb_decode p_get = Some r_get ->
  which_request_type r_get = Request_get_battery_history_tag ->
  exists resp1 s1 store1,
    battery_history_rpc_handle_request p_clear e1 s store
    = Some (true, resp1, s1, store1)
    /\ battery_history_rpc_handle_request p_get e2 s1 store1
       = Some (true,
               Response_battery_history (zmk_battery_state_of_charge e2) 0 [],
               s1, store1).
Proof.
  intros Hpos Hlen Htags Hd1 Ht1 Hd2 Ht2.
  eexists _, _, _. split.
  - unfold battery_history_rpc_handle_request. rewrite Hd1.
    rewrite decide_False by congruence. rewrite decide_True by done.
    by rewrite handle_clear_ok.
  - unfold battery_history_rpc_handle_request. rewrite Hd2.
    rewrite decide_True by done.
    rewrite handle_get_ok; [done|done|].
    split; simpl; [done|lia].
Qed.

(** ** Clearing and the relay *)

(** X19. After a clear the next level change is always stored, whatever
    level the buffer held last and whatever count it had: the buffer then
    holds that one sample. *)
Theorem clear_then_level_change (level : Z) (e1 e2 : env) (s : state)
    (store : gmap string (list Z)) :
  (0 < MAX_HISTORY_ENTRIES)%nat ->
  length (history s) = MAX_HISTORY_ENTRIES ->
  exists rc s1 store1 s2 store2,
    battery_history_clear e1 s store = Some (rc, s1, store1)
    /\ battery_state_changed_listener (Some level) e2 s1 store1
       = Some (0, s2, store2)
    /\ entries s2
       = [mk_entry (get_current_timestamp (k_uptime_get e2)) level]
    /\ battery_history_get_count s2 = 1.
Proof.
  intros Hpos Hlen. unfold battery_history_clear.
  rewrite save_to_storage_empty by done.
  set (s1 := {| history := history s; history_count := 0 |}).
  assert (Hinv1 : buffer_inv s1) by (split; simpl; [done|lia]).
  assert (Hgen : forall store1 : gmap string (list Z), exists s2 store2,
    battery_state_changed_listener (Some level) e2 s1 store1
    = Some (0, s2, store2)
    /\ entries s2 = [mk_entry (get_current_timestamp (k_uptime_get e2)) level]
    /\ battery_history_get_count s2 = 1).
  { intros store1.
    destruct (listener_accept Hpos level e2 s1 store1 Hinv1)
      as (s2 & store2 & Hl & Hinv2 & Hes); [done|].
    exists s2, store2. split; [done|].
    assert (Hes2 : entries s2
                   = [mk_entry (get_current_timestamp (k_uptime_get e2)) level]).
    { rewrite Hes. apply last_n_short. simpl. lia. }
    split; [done|].
    pose proof (length_entries s2 Hinv2) as Hle. rewrite Hes2 in Hle.
    simpl in Hle. unfold battery_history_get_count. destruct Hinv2. lia. }
  destruct (decide (rc_count e1 = 0)); simpl.
  - destruct (Hgen (<[SETTINGS_KEY_COUNT := le_bytes sizeof_int 0]> store))
      as (s2 & store2 & ? & ? & ?).
    by eexists _, _, _, s2, store2.
  - destruct (Hgen store) as (s2 & store2 & ? & ? & ?).
    by eexists _, _, _, s2, store2.
Qed.

(** X18. Over a run of history-entry events the link receives exactly the
    events whose send succeeded, each as one message, in the order of the
    events: a failed send drops its own message and nothing else. *)
Theorem relay_keeps_successful_sends
    (evs : list (zmk_battery_history_entry_event * Z))
    (link : list split_battery_history_entry) :
  relay_events evs link
  = link ++ (relay_message ∘ fst <$> filter (fun p => 0 <= p.2) evs).
Proof.
  revert link. induction evs as [|[ev rc] evs IH]; intros link.
  - simpl. by rewrite app_nil_r.
  - cbn [relay_events]. rewrite IH. rewrite filter_cons.
    unfold battery_history_peripheral_listener. cbn [snd].
    destruct (decide (rc < 0)) as [Hneg|Hpos].
    + by rewrite decide_False by (simpl; lia).
    + rewrite decide_True by (simpl; lia).
      by rewrite <- (assoc_L (++)).
Qed.

(** ** Runs of triggers *)

Lemma on_trigger_entries t e d :
  (0 < MAX_HISTORY_ENTRIES)%nat ->
  buffer_inv (dev_state d) ->
  exists d', on_trigger t e d = Some d'
    /\ buffer_inv (dev_state d')
    /\ dev_link d' = dev_link d
    /\ ((dev_state d' = dev_state d /\ dev_store d' = dev_store d)
        \/ exists level,
             entries (dev_state d')
             = last_n MAX_HISTORY_ENTRIES
                 (entries (dev_state d)
                  ++ [mk_entry (get_current_timestamp (k_uptime_get e))
                        level])).
Proof.
  intros Hpos Hinv. destruct t as [|level]; unfold on_trigger.
  - unfold save_battery_state.
    destruct (record_sample Hpos (get_current_timestamp (k_uptime_get e))
                (zmk_battery_state_of_charge e) e (dev_state d) (dev_store d)
                Hinv) as (s' & store' & Hrec & Hinv' & Hes).
    destruct (add_history_entry _ _ (dev_state d)) as [s1|]; [|done].
    simpl in *.
    destruct (save_to_storage e s1 (dev_store d)) as [[rc st]|]; [|done].
    simpl in *. inversion Hrec; subst.
    eexists. split; [done|]. simpl. split; [done|]. split; [done|].
    right. by eexists.
  - destruct (last (entries (dev_state d))) as [l|] eqn:Hl.
    + destruct (decide (5 <= Z.abs (level - battery_percentage l)))
        as [Hge|Hlt].
      * destruct (listener_accept Hpos level e (dev_state d) (dev_store d)
                    Hinv) as (s' & store' & -> & Hinv' & Hes);
          [by rewrite Hl|].
        eexists. split; [done|]. simpl. split; [done|]. split; [done|].
        right. by eexists.
      * rewrite (listener_reject level e _ _ l Hinv Hl) by lia.
        eexists. split; [done|]. simpl. split; [done|]. split; [done|].
        by left.
    + destruct (listener_accept Hpos level e (dev_state d) (dev_store d) Hinv)
        as (s' & store' & -> & Hinv' & Hes); [by rewrite Hl|].
      eexists. split; [done|]. simpl. split; [done|]. split; [done|].
      right. by eexists.
Qed.

(** X20. Any run of periodic ticks and level changes on a buffer within
    its bounds completes, keeps the buffer within its bounds, and hands
    nothing to the device link. *)
Theorem trigger_run_keeps_bounds (run : list (RecordingTrigger * env))
    (d : device) :
  (0 < MAX_HISTORY_ENTRIES)%nat ->
  buffer_inv (dev_state d) ->
  exists d', run_triggers run d = Some d'
    /\ buffer_inv (dev_state d')
    /\ dev_link d' = dev_link d.
Proof.
  intros Hpos. revert d. induction run as [|[t e] run IH]; intros d Hinv.
  - by exists d.
  - cbn [run_triggers].
    destruct (on_trigger_entries t e d Hpos Hinv)
      as (d1 & -> & Hinv1 & Hlink1 & _). simpl.
    destruct (IH d1 Hinv1) as (d' & Hrun & Hinv' & Hlink').
    exists d'. split; [done|]. split; [done|]. congruence.
Qed.

Lemma chronological_snoc es t level :
  chronological es -> Forall (fun e => timestamp e <= t) es ->
  chronological (es ++ [mk_entry t level]).
Proof.
  intros Hch Hbound i j ei ej Hi Hj Hij.
  destruct (decide (j < length es)%nat) as [Hjl|Hjl].
  - rewrite lookup_app_l in Hi, Hj by lia. by eapply Hch.
  - assert (Hje : ej = mk_entry t level).
    { rewrite lookup_app_r in Hj by lia.
      destruct (j - length es)%nat; simpl in Hj; [by inversion Hj|].
      by rewrite lookup_nil in Hj. }
    subst ej. simpl.
    destruct (decide (i < length es)%nat) as [Hil|Hil].
    + rewrite lookup_app_l in Hi by lia.
      rewrite Forall_lookup in Hbound. by eapply Hbound.
    + rewrite lookup_app_r in Hi by lia.
      destruct (i - length es)%nat; simpl in Hi.
      * inversion Hi. simpl. lia.
      * by rewrite lookup_nil in Hi.
Qed.

Lemma chronological_drop k es :
  chronological es -> chronological (drop k es).
Proof.
  intros Hch i j ei ej Hi Hj Hij. rewrite lookup_drop in Hi, Hj.
  eapply Hch; [done|done|lia].
Qed.

Lemma run_chronological (run : list (RecordingTrigger * env)) :
  (0 < MAX_HISTORY_ENTRIES)%nat ->
  forall d u0,
    buffer_inv (dev_state d) -> 0 <= u0 ->
    chronological (entries (dev_state d)) ->
    Forall (fun e => timestamp e <= get_current_timestamp u0)
      (entries (dev_state d)) ->
    uptimes_nondecreasing u0 run ->
    exists d', run_triggers run d = Some d'
      /\ chronological (entries (dev_state d')).
Proof.
  intros Hpos. induction run as [|[t e] run IH];
    intros d u0 Hinv Hu0 Hch Hbound Hup.
  - by exists d.
  - cbn [run_triggers]. destruct Hup as [Hu Hup].
    destruct (on_trigger_entries t e d Hpos Hinv)
      as (d1 & -> & Hinv1 & _ & Hcase). simpl.
    destruct (timestamp_step u0 (k_uptime_get e)) as [_ Hmono]; [lia|lia|].
    assert (Hbound1 : Forall (fun en => timestamp en
                                <= get_current_timestamp (k_uptime_get e))
                        (entries (dev_state d))).
    { eapply Forall_impl; [exact Hbound|]. simpl. intros. lia. }
    apply (IH d1 (k_uptime_get e)); try done; try lia.
    + destruct Hcase as [[-> _]|[level ->]]; [done|].
      unfold last_n. apply chronological_drop.
      by apply chronological_snoc.
    + destruct Hcase as [[-> _]|[level ->]]; [done|].
      unfold last_n. apply Forall_drop, Forall_app. split; [done|].
      apply Forall_singleton. simpl. lia.
Qed.

(** X21. Within one boot, from an empty buffer, any run of ticks and level
    changes whose uptimes do not decrease and stay below 2^32 seconds
    leaves the stored timestamps in non-decreasing order from the oldest
    entry to the newest. *)
Theorem stored_timestamps_chronological
    (run : list (RecordingTrigger * env)) (d : device) :
  (0 < MAX_HISTORY_ENTRIES)%nat ->
  length (history (dev_state d)) = MAX_HISTORY_ENTRIES ->
  history_count (dev_state d) = 0 ->
  uptimes_nondecreasing 0 run ->
  exists d', run_triggers run d = Some d'
    /\ chronological (entries (dev_state d')).
Proof.
  intros Hpos Hlen Hc Hup.
  apply (run_chronological run Hpos d 0); try done.
  - split; [done|]. rewrite Hc. lia.
  - rewrite (entries_empty _ Hc). intros i j ei ej Hi. by rewrite lookup_nil in Hi.
  - by rewrite (entries_empty _ Hc).
Qed.

Lemma level_changes_cons level e evs s (store : gmap string (list Z)) :
  battery_state_changed_listener (Some level) e s store = Some (0, s, store) ->
  level_changes ((level, e) :: evs) s store = level_changes evs s store.
Proof. intros Hl. cbn [level_changes]. by rewrite Hl. Qed.

(** X22. Level changes that all stay within less than 5 of the last stored
    level change nothing, however many arrive: the buffer and the store are
    as before, and no write is attempted. *)
Theorem small_level_changes_store_nothing (evs : list (Z * env)) (s : state)
    (store : gmap string (list Z)) (l : battery_history_entry) :
  buffer_inv s -> last (entries s) = Some l ->
  Forall (fun p => Z.abs (p.1 - battery_percentage l) < 5) evs ->
  level_changes evs s store = Some (s, store).
Proof.
  intros Hinv Hl Hsmall. induction Hsmall as [|[level e] evs Hlt _ IH].
  - done.
  - rewrite level_changes_cons; [done|].
    by apply (listener_reject level e s store l).
Qed.

End BatteryHistory.

(** * Concrete instances

    The statements above at a capacity of four entries and the usual
    three bytes of padding. *)

Lemma buffer_inv_two_entries : buffer_inv 4 two_entries.
Proof. split; [reflexivity | simpl; lia]. Defined.

(** C2 at capacity 3: five appends leave the last three. *)
Lemma fifo_append_keeps_last_N_witness :
  exists s',
    appends 3 [mk_entry 10 90; mk_entry 20 85; mk_entry 30 80;
               mk_entry 40 75; mk_entry 50 70] (initial_state 3) = Some s'
    /\ history_count s' = 3
    /\ entries s' = [mk_entry 30 80; mk_entry 40 75; mk_entry 50 70].
Proof.
  exact (proj1 (fifo_append_keeps_last_N 3 ltac:(lia))
           [mk_entry 10 90; mk_entry 20 85; mk_entry 30 80;
            mk_entry 40 75; mk_entry 50 70] 2%nat eq_refl).
Defined.

(** C3 for a buffer of two entries and an empty store. *)
Lemma save_then_load_roundtrip_witness :
  exists store',
    save_to_storage 3 sample_env two_entries ∅ = Some (0, store')
    /\ history_count (battery_history_init 4 3 store') = 2
    /\ entries (battery_history_init 4 3 store')
       = [mk_entry 60 80; mk_entry 120 75].
Proof.
  destruct (save_then_load_roundtrip 4 3 sample_env two_entries
              (initial_state 4) ∅ buffer_inv_two_entries)
    as (store' & Hsave & _ & _ & Hc & He).
  - repeat constructor; simpl; unfold UINT32_MOD; lia.
  - reflexivity.
  - reflexivity.
  - reflexivity.
  - intros _. reflexivity.
  - exists store'. split; [exact Hsave|]. split; [exact Hc | exact He].
Defined.

(** C10 for the cleared buffer over a store that still holds entries. *)
Lemma save_empty_writes_count_only_witness :
  exists store',
    save_to_storage 3 sample_env (initial_state 4)
      {[ SETTINGS_KEY_ENTRIES := [1; 2; 3] ]} = Some (0, store')
    /\ store' !! SETTINGS_KEY_ENTRIES = Some [1; 2; 3].
Proof.
  destruct (save_empty_writes_count_only 3 sample_env (initial_state 4)
              {[ SETTINGS_KEY_ENTRIES := [1; 2; 3] ]} eq_refl)
    as (store' & Hsave & He & _).
  exists store'. split; [exact Hsave|].
  rewrite He. apply lookup_singleton_eq.
Defined.

(** C6 when the write succeeds, and when it fails with code -5. *)
Lemma clear_law_witness :
  (exists s' store',
      battery_history_clear 3 sample_env two_entries ∅ = Some (0, s', store')
      /\ battery_history_get_count s' = 0
      /\ history_count (battery_history_init 4 3 store') = 0)
  /\ (exists s' store',
      battery_history_clear 3 failing_env two_entries ∅ = Some (-5, s', store')
      /\ battery_history_get_count s' = 0
      /\ store' = ∅).
Proof.
  split.
  - destruct (clear_law 4 3 sample_env two_entries ∅)
      as (s' & store' & Hclr & Hc & _ & Hok & _).
    exists s', store'. split; [exact Hclr|]. split; [exact Hc|].
    exact (proj1 (Hok eq_refl)).
  - destruct (clear_law 4 3 failing_env two_entries ∅)
      as (s' & store' & Hclr & Hc & _ & _ & Hfail).
    exists s', store'. split; [exact Hclr|]. split; [exact Hc|].
    apply Hfail. discriminate.
Defined.

(** C7: one entry of two is asked for. *)
Lemma get_entries_min_oldest_first_witness :
  battery_history_get_entries (Some (replicate 4 (mk_entry 0 0))) 1 two_entries
  = Some (1, Some [mk_entry 60 80; mk_entry 0 0; mk_entry 0 0; mk_entry 0 0])
  /\ battery_history_get_entries (Some (replicate 4 (mk_entry 0 0))) 0
       two_entries
     = Some (- EINVAL, Some (replicate 4 (mk_entry 0 0))).
Proof.
  pose proof (get_entries_min_oldest_first 4 two_entries
                (replicate 4 (mk_entry 0 0)) 1 buffer_inv_two_entries)
    as [Hpos _].
  pose proof (get_entries_min_oldest_first 4 two_entries
                (replicate 4 (mk_entry 0 0)) 0 buffer_inv_two_entries)
    as [_ Hzero].
  split.
  - apply Hpos; simpl; lia.
  - apply Hzero. reflexivity.
Defined.

(** C4: the four level changes at capacity 4. *)
Lemma level_change_threshold_witness :
  exists s' store',
    level_changes 4 3
      [(80, sample_env); (83, sample_env); (90, failing_env); (88, sample_env)]
      (initial_state 4) ∅ = Some (s', store')
    /\ battery_percentage <$> entries s' = [80; 90].
Proof.
  exact (proj2 (level_change_threshold 4 3 ltac:(lia)) ltac:(lia)
           sample_env sample_env failing_env sample_env ∅).
Defined.

(** C9: an empty payload does not decode, and tag 7 is of no known type. *)
Lemma rpc_bad_request_error_response_witness :
  battery_history_rpc_handle_request 4 3 1 2 sample_pb_decode 64 []
    sample_env two_entries ∅
  = Some (true, Response_error "Failed to decode request", two_entries, ∅)
  /\ battery_history_rpc_handle_request 4 3 1 2 sample_pb_decode 64 [7]
       sample_env two_entries ∅
     = Some (true, Response_error "Failed to process request", two_entries, ∅).
Proof.
  split.
  - exact (proj1 (rpc_bad_request_error_response 4 3 1 2 sample_pb_decode 64
                    [] sample_env two_entries ∅) eq_refl).
  - refine (proj1 (proj2 (rpc_bad_request_error_response 4 3 1 2
                            sample_pb_decode 64 [7] sample_env two_entries ∅))
              {| which_request_type := 7 |} eq_refl _ _); simpl; lia.
Defined.

(** C8: a periodic tick on a device holding two entries stores a third and
    hands nothing to the link, where the relay stream of the buffer has two
    chunks before the append and three after it. *)
Lemma tick_restreams_counterexample :
  (exists d',
      on_trigger 4 3 PeriodicTick sample_env
        {| dev_state := two_entries; dev_store := ∅; dev_link := [] |}
      = Some d'
      /\ entries (dev_state d')
         = [mk_entry 60 80; mk_entry 120 75; mk_entry 60 80]
      /\ dev_link d' = []
      /\ length (spec_relay_stream (entries two_entries)) = 2%nat
      /\ length (spec_relay_stream (entries (dev_state d'))) = 3%nat)
  /\ ~ spec_tick_restreams 4 3.
Proof.
  pose (d := {| dev_state := two_entries; dev_store := ∅; dev_link := [] |}).
  destruct (on_trigger 4 3 PeriodicTick sample_env d) as [d'|] eqn:Hd;
    [|vm_compute in Hd; discriminate Hd].
  assert (Hd' := Hd). vm_compute in Hd'. injection Hd' as Hd'.
  split.
  - exists d'. split; [done|]. by rewrite <- Hd'.
  - intros Hclaim.
    specialize (Hclaim sample_env d d' buffer_inv_two_entries Hd).
    rewrite <- Hd' in Hclaim. discriminate Hclaim.
Qed.

(** C8, as the code has it: a tick on a buffer of two entries, with both
    writes succeeding. *)
Lemma append_stores_saves_sends_nothing_witness :
  exists d' rc,
    on_trigger 4 3 PeriodicTick sample_env
      {| dev_state := two_entries; dev_store := ∅; dev_link := [] |}
    = Some d'
    /\ entries (dev_state d')
       = [mk_entry 60 80; mk_entry 120 75; mk_entry 60 80]
    /\ save_to_storage 3 sample_env (dev_state d') ∅ = Some (rc, dev_store d')
    /\ rc = 0
    /\ dev_link d' = [].
Proof.
  destruct (proj1 (append_stores_saves_sends_nothing 4 3 ltac:(lia)
                     PeriodicTick sample_env
                     {| dev_state := two_entries; dev_store := ∅;
                        dev_link := [] |}
                     buffer_inv_two_entries) I)
    as (d' & rc & Htrig & Hes & _ & _ & Hsave & _ & Hok & Hlink).
  exists d', rc. split; [exact Htrig|]. split; [exact Hes|].
  split; [exact Hsave|]. split; [|exact Hlink].
  apply Hok; reflexivity.
Defined.

(** C1: capacity 4, stored count 5. *)
Lemma load_accepts_count_above_capacity_witness :
  settings_load_handler 4 3 "count" [5; 0; 0; 0] (initial_state 4)
  = (4, {| history := replicate 4 (mk_entry 0 0); history_count := 5 |})
  /\ battery_history_get_count
       (battery_history_init 4 3 {[ SETTINGS_KEY_COUNT := [5; 0; 0; 0] ]})
     = 5.
Proof.
  destruct (load_accepts_count_above_capacity 4 3 5 (initial_state 4))
    as (Hload & Hinit & _).
  - unfold INT_MAX. simpl. lia.
  - split; [exact Hload|]. apply Hinit. apply lookup_singleton_eq.
Defined.

(** C5: capacity 4, stored count 5. *)
Lemma load_breaks_length_invariant_witness :
  ~ buffer_inv 4
      (battery_history_init 4 3 {[ SETTINGS_KEY_COUNT := [5; 0; 0; 0] ]})
  /\ battery_state_changed_listener 4 3 (Some 80) sample_env
       (battery_history_init 4 3 {[ SETTINGS_KEY_COUNT := [5; 0; 0; 0] ]}) ∅
     = None.
Proof.
  destruct (proj2 (proj2 (load_breaks_length_invariant 4 3 ltac:(lia))) 5
              {[ SETTINGS_KEY_COUNT := [5; 0; 0; 0] ]}) as [Hinv Hlisten].
  - unfold INT_MAX. simpl. lia.
  - apply lookup_singleton_eq.
  - split; [exact Hinv | apply Hlisten].
Defined.

(** * Concrete instances of the further properties *)

(** X1: a three-byte count blob and an unknown key. *)
Lemma load_refusal_keeps_state_witness :
  settings_load_handler 4 3 "count" [1; 2; 3] two_entries
  = (- EINVAL, two_entries)
  /\ settings_load_handler 4 3 "other" [1; 2; 3] two_entries
     = (- ENOENT, two_entries).
Proof.
  destruct (load_refusal_keeps_state 4 3 "other" [1; 2; 3] two_entries)
    as (Hcount & _ & Hother).
  split; [apply Hcount | apply Hother]; discriminate.
Defined.

(** X2: a store that holds an entries blob and no count. *)
Lemma init_without_count_is_empty_witness :
  battery_history_get_count
    (battery_history_init 4 3 {[ SETTINGS_KEY_ENTRIES := [1; 2; 3] ]}) = 0.
Proof.
  refine (proj1 (init_without_count_is_empty 4 3
                   {[ SETTINGS_KEY_ENTRIES := [1; 2; 3] ]} _)).
  intros v Hv. rewrite lookup_singleton_ne in Hv by discriminate.
  discriminate Hv.
Defined.

(** X3: a stored count of 2 at capacity 4. *)
Lemma init_inv_iff_count_in_range_witness :
  buffer_inv 4
    (battery_history_init 4 3 {[ SETTINGS_KEY_COUNT := [2; 0; 0; 0] ]}).
Proof.
  destruct (init_inv_iff_count_in_range 4 3
              {[ SETTINGS_KEY_COUNT := [2; 0; 0; 0] ]} [2; 0; 0; 0])
    as [_ Hiff].
  - apply lookup_singleton_eq.
  - reflexivity.
  - apply Hiff. vm_compute. split; discriminate.
Defined.

(** X4: a stored count of 3 beside a blob of two entries. *)
Lemma init_from_stored_entries_witness :
  battery_history_init 4 3
    (<[ SETTINGS_KEY_ENTRIES :=
          history_bytes 3 [mk_entry 60 80; mk_entry 120 75] ]>
       {[ SETTINGS_KEY_COUNT := le_bytes sizeof_int 3 ]})
  = {| history := [mk_entry 60 80; mk_entry 120 75; mk_entry 0 0; mk_entry 0 0];
       history_count := 3 |}.
Proof.
  apply (init_from_stored_entries 4 3 _ 3 [mk_entry 60 80; mk_entry 120 75]).
  - rewrite lookup_insert_ne by discriminate. apply lookup_singleton_eq.
  - apply lookup_insert_eq.
  - repeat constructor; simpl; unfold UINT32_MOD; lia.
  - simpl. lia.
  - lia.
  - unfold INT_MAX. lia.
Defined.

(** X6: a count of 7 on an array of four slots. *)
Lemma append_repairs_large_count_witness :
  add_history_entry 4 99 50
    {| history := [mk_entry 1 10; mk_entry 2 20; mk_entry 3 30; mk_entry 4 40];
       history_count := 7 |}
  = Some {| history := [mk_entry 2 20; mk_entry 3 30; mk_entry 4 40;
                        mk_entry 99 50];
            history_count := 4 |}.
Proof.
  refine (proj1 (append_repairs_large_count 4 99 50
                   {| history := [mk_entry 1 10; mk_entry 2 20;
                                  mk_entry 3 30; mk_entry 4 40];
                      history_count := 7 |} _ _ _)).
  - lia.
  - reflexivity.
  - simpl. lia.
Defined.

(** X7: the count -1. *)
Lemma count_blob_roundtrip_witness :
  settings_load_handler 4 3 "count" [255; 255; 255; 255] two_entries
  = (4, {| history := history two_entries; history_count := -1 |}).
Proof.
  apply (count_blob_roundtrip 4 3 (-1) two_entries).
  unfold INT_MAX. lia.
Defined.

(** X8: the count write fails with code -5. *)
Lemma save_stops_at_first_failure_witness :
  save_to_storage 3 failing_env two_entries ∅ = Some (-5, ∅).
Proof.
  apply (proj1 (save_stops_at_first_failure 4 3 failing_env two_entries ∅)).
  discriminate.
Defined.

Lemma save_two_entries :
  save_to_storage 3 sample_env two_entries ∅
  = Some (0, <[SETTINGS_KEY_ENTRIES := history_bytes 3 (entries two_entries)]>
               (<[SETTINGS_KEY_COUNT := le_bytes sizeof_int 2]> ∅)).
Proof.
  apply (save_to_storage_ok 4 3 sample_env two_entries ∅
           buffer_inv_two_entries); reflexivity.
Defined.

(** X9: saving two entries twice. *)
Lemma save_idempotent_witness :
  save_to_storage 3 sample_env two_entries
    (<[SETTINGS_KEY_ENTRIES := history_bytes 3 (entries two_entries)]>
       (<[SETTINGS_KEY_COUNT := le_bytes sizeof_int 2]> ∅))
  = Some (0, <[SETTINGS_KEY_ENTRIES := history_bytes 3 (entries two_entries)]>
               (<[SETTINGS_KEY_COUNT := le_bytes sizeof_int 2]> ∅)).
Proof.
  exact (save_idempotent 4 3 sample_env two_entries ∅ _
           buffer_inv_two_entries save_two_entries).
Defined.

(** X10: two entries of eight bytes each. *)
Lemma saved_blob_sizes_witness :
  let store' : gmap string (list Z) :=
    <[SETTINGS_KEY_ENTRIES := history_bytes 3 (entries two_entries)]>
      (<[SETTINGS_KEY_COUNT := le_bytes sizeof_int 2]> ∅) in
  exists count_blob entries_blob,
    store' !! SETTINGS_KEY_COUNT = Some count_blob
    /\ length count_blob = 4%nat
    /\ store' !! SETTINGS_KEY_ENTRIES = Some entries_blob
    /\ Z.of_nat (length entries_blob) = 2 * 8
    /\ (length entries_blob <= 32)%nat.
Proof.
  apply (saved_blob_sizes 4 3 sample_env two_entries ∅ _
           buffer_inv_two_entries).
  - reflexivity.
  - reflexivity.
  - exact save_two_entries.
Defined.

(** X11: a tick whose count write fails still appends. *)
Lemma tick_always_appends_witness :
  exists s' store',
    save_battery_state 4 3 failing_env two_entries ∅ = Some (s', store')
    /\ entries s' = [mk_entry 60 80; mk_entry 120 75; mk_entry 60 80].
Proof.
  destruct (tick_always_appends 4 3 failing_env two_entries ∅ ltac:(lia)
              buffer_inv_two_entries)
    as (s' & store' & Htick & _ & _ & Hes & _).
  exists s', store'. split; [exact Htick | exact Hes].
Defined.

(** X12: a tick on two entries, then a restart. *)
Lemma tick_then_restart_witness :
  exists s' store',
    save_battery_state 4 3 sample_env two_entries ∅ = Some (s', store')
    /\ history_count (battery_history_init 4 3 store') = history_count s'
    /\ entries (battery_history_init 4 3 store') = entries s'.
Proof.
  apply (tick_then_restart 4 3 sample_env two_entries ∅ ltac:(lia)
           buffer_inv_two_entries).
  - repeat constructor; simpl; unfold UINT32_MOD; lia.
  - simpl. lia.
  - reflexivity.
  - reflexivity.
  - reflexivity.
Defined.

(** X13: one minute and two minutes of uptime. *)
Lemma timestamp_seconds_monotone_witness :
  get_current_timestamp 60000 = 60
  /\ get_current_timestamp 60000 <= get_current_timestamp 120000.
Proof.
  apply (proj2 (timestamp_seconds_monotone 60000 120000));
    unfold UINT32_MOD; lia.
Defined.

(** X14: tag 1 is the get-history request. *)
Lemma rpc_get_history_response_witness :
  battery_history_rpc_handle_request 4 3 1 2 sample_pb_decode 64 [1]
    sample_env two_entries ∅
  = Some (true,
          Response_battery_history 80 2 [mk_entry 60 80; mk_entry 120 75],
          two_entries, ∅).
Proof.
  apply (rpc_get_history_response 4 3 1 2 sample_pb_decode 64 [1]
           {| which_request_type := 1 |} sample_env two_entries ∅
           ltac:(lia) buffer_inv_two_entries); reflexivity.
Defined.

(** X15: tag 2 is the clear-history request; the write fails. *)
Lemma rpc_clear_history_response_witness :
  battery_history_rpc_handle_request 4 3 1 2 sample_pb_decode 64 [2]
    failing_env two_entries ∅
  = Some (true, Response_clear_battery_history false,
          {| history := history two_entries; history_count := 0 |}, ∅).
Proof.
  apply (rpc_clear_history_response 4 3 1 2 sample_pb_decode 64 [2]
           {| which_request_type := 2 |} failing_env two_entries ∅).
  - reflexivity.
  - simpl. lia.
  - reflexivity.
Defined.

(** X16: a payload of an unknown tag. *)
Lemma rpc_handler_always_answers_witness :
  exists resp s' store',
    battery_history_rpc_handle_request 4 3 1 2 sample_pb_decode 64 [9]
      sample_env two_entries ∅ = Some (true, resp, s', store')
    /\ buffer_inv 4 s'.
Proof.
  exact (rpc_handler_always_answers 4 3 1 2 sample_pb_decode 64 [9]
           sample_env two_entries ∅ buffer_inv_two_entries).
Defined.

(** X17: clear, then get. *)
Lemma rpc_clear_then_get_witness :
  exists resp1 s1 store1,
    battery_history_rpc_handle_request 4 3 1 2 sample_pb_decode 64 [2]
      failing_env two_entries ∅ = Some (true, resp1, s1, store1)
    /\ battery_history_rpc_handle_request 4 3 1 2 sample_pb_decode 64 [1]
         sample_env s1 store1
       = Some (true, Response_battery_history 80 0 [], s1, store1).
Proof.
  apply (rpc_clear_then_get 4 3 1 2 sample_pb_decode 64 [2] [1]
           {| which_request_type := 2 |} {| which_request_type := 1 |}
           failing_env sample_env two_entries ∅);
    try reflexivity; lia.
Defined.

(** X19: clear on two entries, then a level change to 76. *)
Lemma clear_then_level_change_witness :
  exists rc s1 store1 s2 store2,
    battery_history_clear 3 sample_env two_entries ∅ = Some (rc, s1, store1)
    /\ battery_state_changed_listener 4 3 (Some 76) sample_env s1 store1
       = Some (0, s2, store2)
    /\ entries s2 = [mk_entry 60 76]
    /\ battery_history_get_count s2 = 1.
Proof.
  apply (clear_then_level_change 4 3 76 sample_env sample_env two_entries ∅);
    [lia | reflexivity].
Defined.

(** X20: a tick and a level change on two entries. *)
Lemma trigger_run_keeps_bounds_witness :
  exists d',
    run_triggers 4 3 [(PeriodicTick, sample_env); (LevelChanged 70, failing_env)]
      {| dev_state := two_entries; dev_store := ∅; dev_link := [] |} = Some d'
    /\ buffer_inv 4 (dev_state d')
    /\ dev_link d' = [].
Proof.
  apply (trigger_run_keeps_bounds 4 3
           [(PeriodicTick, sample_env); (LevelChanged 70, failing_env)]
           {| dev_state := two_entries; dev_store := ∅; dev_link := [] |}
           ltac:(lia) buffer_inv_two_entries).
Defined.

(** X21: two ticks and a level change from the empty buffer. *)
Lemma stored_timestamps_chronological_witness :
  exists d',
    run_triggers 4 3
      [(PeriodicTick, sample_env); (LevelChanged 70, sample_env);
       (PeriodicTick, {| k_uptime_get := 120000;
                         zmk_battery_state_of_charge := 70;
                         rc_count := 0; rc_entries := 0 |})]
      {| dev_state := initial_state 4; dev_store := ∅; dev_link := [] |}
    = Some d'
    /\ chronological (entries (dev_state d')).
Proof.
  apply (stored_timestamps_chronological 4 3 _ _ ltac:(lia));
    try reflexivity.
  simpl. unfold UINT32_MOD. lia.
Defined.

(** X22: levels 77 and 73 after a stored 75. *)
Lemma small_level_changes_store_nothing_witness :
  level_changes 4 3 [(77, sample_env); (73, failing_env)] two_entries ∅
  = Some (two_entries, ∅).
Proof.
  apply (small_level_changes_store_nothing 4 3 _ two_entries ∅
           (mk_entry 120 75) buffer_inv_two_entries).
  - reflexivity.
  - repeat constructor; simpl; lia.
Defined.
